(** * NEC infrared remote control: codec and sender of the [irremote] package

    The integers of the Go source are modelled as [Z] with the conversions
    and the wrap-around of the fixed-width types written out. *)

From Stdlib Require Import ZArith List Lia Bool.
From coqutil Require Import Z.bitblast.
Import ListNotations.
Local Open Scope Z_scope.

(** ** Fixed-width integers *)

(** [byte(x)], [uint16(x)], [uint32(x)]: conversion to an unsigned type keeps
    the low bits. *)
Definition u8 (z : Z) : Z := z mod 2 ^ 8.
Definition u16 (z : Z) : Z := z mod 2 ^ 16.
Definition u32 (z : Z) : Z := z mod 2 ^ 32.

(** [^b] on a [byte]. *)
Definition not8 (b : Z) : Z := u8 (Z.lnot b).

(** The ranges of the unsigned types. *)
Definition is_u8 (z : Z) : Prop := 0 <= z <= 0xFF.
Definition is_u16 (z : Z) : Prop := 0 <= z <= 0xFFFF.
Definition is_u32 (z : Z) : Prop := 0 <= z <= 0xFFFFFFFF.

(** ** The codec *)

(** [MakeNECAddress(addrLow, addrHigh byte) uint16]. *)
Definition MakeNECAddress (addrLow addrHigh : Z) : Z :=
  if addrHigh =? not8 addrLow then
    u16 addrLow
  else
    Z.lor (u16 (Z.shiftl (u16 addrHigh) 8)) (u16 addrLow).

(** [SplitNECAddress(address uint16) (addrLow, addrHigh byte)]. *)
Definition SplitNECAddress (address : Z) : Z * Z :=
  let addrLow := u8 (Z.land address 0xff) in
  let addrHigh := u8 (Z.shiftr (Z.land address 0xff00) 8) in
  let addrHigh := if addrHigh =? 0 then not8 addrLow else addrHigh in
  (addrLow, addrHigh).

(** [SplitRawNECData(data uint32) (valid bool, address uint16, command byte)].
    The named results are assigned in the order of the source; [valid] starts
    as [true] and is cleared by the check at the end. *)
Definition SplitRawNECData (data : Z) : bool * Z * Z :=
  let valid := true in
  let addrLow := u8 (Z.land data 0xff) in
  let addrHigh := u8 (Z.shiftr (Z.land data 0xff00) 8) in
  let command := u8 (Z.shiftr (Z.land data 0xff0000) 16) in
  let invCmd := u8 (Z.shiftr (Z.land data 0xff000000) 24) in
  let address := MakeNECAddress addrLow addrHigh in
  let valid := if negb (command =? not8 invCmd) then false else valid in
  (valid, address, command).

(** [MakeRawNECData(address uint16, command byte) uint32]. *)
Definition MakeRawNECData (address command : Z) : Z :=
  let '(addrLow, addrHigh) := SplitNECAddress address in
  Z.lor
    (Z.lor
       (Z.lor (u32 (Z.shiftl (u32 (not8 command)) 24))
              (u32 (Z.shiftl (u32 command) 16)))
       (u32 (Z.shiftl (u32 addrHigh) 8)))
    (u32 addrLow).

(** The four bytes of a raw code, least significant first, as the spec
    numbers them (byte 2 is the command, byte 3 its complement). *)
Definition raw_byte (k : Z) (data : Z) : Z := (data / 2 ^ (8 * k)) mod 2 ^ 8.

(** The layout the spec gives for the encoder: address decomposition, then
    [low | high<<8 | command<<16 | not(command)<<24]. *)
Definition spec_decompose (address : Z) : Z * Z :=
  let low := Z.land address 0xFF in
  let high := if Z.shiftr address 8 =? 0 then not8 low else Z.shiftr address 8 in
  (low, high).

Definition spec_encode_raw (address command : Z) : Z :=
  let '(low, high) := spec_decompose address in
  Z.lor (Z.lor (Z.lor low (Z.shiftl high 8)) (Z.shiftl command 16))
        (Z.shiftl (not8 command) 24).

(** The address canonicalisation of the codec: decompose, then resolve. *)
Definition canonical_address (address : Z) : Z :=
  let '(addrLow, addrHigh) := SplitNECAddress address in
  MakeNECAddress addrLow addrHigh.

(** ** Protocol timing *)

(** [time.Duration] is an [int64] count of nanoseconds; [i64] is the
    wrap-around of the run-time additions and subtractions.  The constants
    are constant expressions, evaluated exactly by the compiler. *)
Definition Duration : Type := Z.
Definition i64 (z : Z) : Z := (z + 2 ^ 63) mod 2 ^ 64 - 2 ^ 63.
Definition dadd (a b : Duration) : Duration := i64 (a + b).
Definition dsub (a b : Duration) : Duration := i64 (a - b).

Definition Nanosecond : Duration := 1.
Definition NEC_modulation_frequency : Z := 38000.
Definition nec_unit : Duration := Nanosecond * 562500.
Definition nec_lead_mark : Duration := nec_unit * 16.
Definition nec_lead_space : Duration := nec_unit * 8.
Definition nec_repeat_space : Duration := nec_unit * 4.
Definition nec_bit_mark : Duration := nec_unit.
Definition nec_bit_0_space : Duration := nec_unit.
Definition nec_bit_1_space : Duration := nec_unit * 3.
Definition nec_trail_mark : Duration := nec_unit.
Definition nec_repeat_period : Duration := nec_unit * 192.

(** ** The sender device *)

(** The [PWM] interface: [Channel] and [Top] are read as functions of the
    peripheral ([Channel] returns the channel and whether [err] is non-nil);
    [Set] is an output, recorded in the trace below. *)
Record PWM : Type := {
  Channel : Z -> Z * bool;
  Top : Z
}.

(** A channel is named by the order of its [make]. *)
Definition Chan : Type := nat.

(** [SenderDevice]; [chRpt] is [None] for the nil channel. *)
Record SenderDevice : Type := {
  pin : Z;
  pwm : PWM;
  pwmDC : Z;
  chRpt : option Chan
}.

Record SenderConfig : Type := {
  ConfigPin : Z;
  ConfigPWM : PWM;
  ModulationDutyCycle : Z
}.

(** [NewSender(config SenderConfig) SenderDevice]. *)
Definition NewSender (config : SenderConfig) : SenderDevice :=
  let config :=
    if (ModulationDutyCycle config <? 1) || (ModulationDutyCycle config >? 100)
    then {| ConfigPin := ConfigPin config;
            ConfigPWM := ConfigPWM config;
            ModulationDutyCycle := 33 |}
    else config in
  {| pin := ConfigPin config;
     pwm := ConfigPWM config;
     pwmDC := ModulationDutyCycle config;
     chRpt := None |}.

(** ** Programs of the sender

    The methods of [*SenderDevice] read and write the one device behind the
    pointer, drive the PWM, sleep, and start a goroutine.  A method is a
    term of [Prog]: the operations it performs on the shared device and the
    outputs, bound together by Rocq functions. *)
Inductive Prog : Type -> Type :=
| Ret {A : Type} (a : A) : Prog A
| Bind {A B : Type} (m : Prog A) (k : A -> Prog B) : Prog B
| Load : Prog SenderDevice                  (* read the fields of [*ir] *)
| StoreChRpt (c : option Chan) : Prog unit  (* [ir.chRpt = c] *)
| MakeChan : Prog Chan                      (* [make(chan int)] *)
| TryRecv (c : option Chan) : Prog bool     (* [select { case <-c: ; default: }] *)
| Close (c : option Chan) : Prog unit       (* [close(c)] *)
| Sleep (d : Duration) : Prog unit          (* [time.Sleep(d)] *)
| PwmSet (channel value : Z) : Prog unit    (* [ir.pwm.Set(channel, value)] *)
| Go (g : Prog unit) : Prog unit            (* [go func() { g }()] *)
| While (body : Prog bool) : Prog unit.     (* run [body] until it answers [false] *)

Declare Scope prog_scope.
Delimit Scope prog_scope with prog.
Bind Scope prog_scope with Prog.
Notation "x <- m ;; k" := (Bind m (fun x => k))
  (at level 61, m at next level, right associativity) : prog_scope.
Notation "m ;; k" := (Bind m (fun _ => k))
  (at level 61, right associativity) : prog_scope.
Local Open Scope prog_scope.

(** [for _, x := range xs { ... }] with the variables the body updates
    threaded as [s]. *)
Fixpoint for_each {S X : Type} (xs : list X) (body : S -> X -> Prog S) (s : S)
  : Prog S :=
  match xs with
  | [] => Ret s
  | x :: xs' => s' <- body s x ;; for_each xs' body s'
  end.

(** [mark(duration)]: the carrier is pulsed for [duration]. *)
Definition mark (duration : Duration) : Prog unit :=
  ir <- Load ;;
  let '(pwmChan, _) := Channel (pwm ir) (pin ir) in
  PwmSet pwmChan (u32 (Top (pwm ir) * u32 (pwmDC ir)) / 100) ;;
  Sleep duration ;;
  PwmSet pwmChan 0.

(** [space(duration)]. *)
Definition space (duration : Duration) : Prog unit :=
  Sleep duration.

(** [waitForAutoRepeatCancel()]: every [ir.chRpt] of the source is a read of
    the shared field. *)
Definition waitForAutoRepeatCancel : Prog unit :=
  While (
    ir <- Load ;;
    match chRpt ir with
    | None => Ret false
    | Some _ =>
        ir <- Load ;;
        closed <- TryRecv (chRpt ir) ;;
        if closed then
          Sleep (nec_unit * 40) ;; Ret true
        else
          ir <- Load ;;
          Close (chRpt ir) ;; Ret true
    end).

(** [SendNECRepeat() time.Duration]. *)
Definition SendNECRepeat : Prog Duration :=
  mark nec_lead_mark ;;
  space nec_repeat_space ;;
  mark nec_trail_mark ;;
  Ret (nec_lead_mark + nec_repeat_space + nec_trail_mark).

(** [StopNECRepeats()]. *)
Definition StopNECRepeats : Prog unit :=
  waitForAutoRepeatCancel.

(** The body of the inner loop of [SendNECRawBytes], for bit [i] of byte [b]. *)
Definition send_bit (b : Z) (txDuration : Duration) (i : Z) : Prog Duration :=
  let mask := u8 (Z.shiftl (u8 1) i) in
  mark nec_bit_mark ;;
  if Z.land b mask =? 0 then
    space nec_bit_0_space ;;
    Ret (dadd txDuration nec_bit_0_space)
  else
    space nec_bit_1_space ;;
    Ret (dadd txDuration nec_bit_1_space).

(** [SendNECRawBytes(addrLow, addrHigh, cmd, invCmd byte) time.Duration]. *)
Definition SendNECRawBytes (addrLow addrHigh cmd invCmd : Z) : Prog Duration :=
  waitForAutoRepeatCancel ;;
  let bytesToSend := [addrLow; addrHigh; cmd; invCmd] in
  let txDuration :=
    nec_lead_mark + nec_lead_space + 32 * nec_bit_mark + nec_trail_mark in
  mark nec_lead_mark ;;
  space nec_lead_space ;;
  txDuration <-
    for_each bytesToSend
      (fun txDuration b =>
         for_each [0; 1; 2; 3; 4; 5; 6; 7] (send_bit b) txDuration)
      txDuration ;;
  mark nec_trail_mark ;;
  Ret txDuration.

(** The goroutine started by [SendNEC] with [autoRepeat]. *)
Definition autoRepeatGoroutine (dataTxDuration : Duration) : Prog unit :=
  Sleep (dsub nec_repeat_period dataTxDuration) ;;
  While (
    irs <- Load ;;
    match chRpt irs with
    | None => Ret false
    | Some _ =>
        irs <- Load ;;
        closed <- TryRecv (chRpt irs) ;;
        if closed then
          StoreChRpt None ;; Ret true
        else
          repeatTxDuration <- SendNECRepeat ;;
          Sleep (dsub nec_repeat_period repeatTxDuration) ;; Ret true
    end).

(** [SendNEC(address uint16, command byte, autoRepeat bool)]. *)
Definition SendNEC (address command : Z) (autoRepeat : bool) : Prog unit :=
  let '(addrLow, addrHigh) := SplitNECAddress address in
  dataTxDuration <- SendNECRawBytes addrLow addrHigh command (not8 command) ;;
  if autoRepeat then
    ch <- MakeChan ;;
    StoreChRpt (Some ch) ;;
    Go (autoRepeatGoroutine dataTxDuration)
  else
    Ret tt.

(** [SendNECRawCode(data uint32) time.Duration]. *)
Definition SendNECRawCode (data : Z) : Prog Duration :=
  let '(valid, address, cmd) := SplitRawNECData data in
  if negb valid then
    Ret 0
  else
    let '(addrLow, addrHigh) := SplitNECAddress address in
    SendNECRawBytes addrLow addrHigh cmd (not8 cmd).

(** ** Execution

    The outputs of a run, in order, each with the thread that made it:
    thread 0 is the caller of the API, thread [i+1] the [i]-th goroutine
    started. *)
Inductive Event : Type :=
| EvPwmSet (channel value : Z)
| EvSleep (d : Duration).

Record World : Type := {
  dev : SenderDevice;
  closed : list Chan;
  next_chan : Chan;
  trace : list (nat * Event)
}.

Definition is_closed (w : World) (c : Chan) : bool :=
  existsb (Nat.eqb c) (closed w).

Definition set_chRpt (c : option Chan) (w : World) : World :=
  {| dev := {| pin := pin (dev w); pwm := pwm (dev w);
               pwmDC := pwmDC (dev w); chRpt := c |};
     closed := closed w; next_chan := next_chan w; trace := trace w |}.

Definition emit (tid : nat) (e : Event) (w : World) : World :=
  {| dev := dev w; closed := closed w; next_chan := next_chan w;
     trace := trace w ++ [(tid, e)] |}.

Inductive Outcome (A : Type) : Type :=
| Stepped (p : Prog A) (w : World) (spawned : list (Prog unit))
| Done (a : A)
| Panic.
Arguments Stepped {A}.
Arguments Done {A}.
Arguments Panic {A}.

(** One step of thread [tid].  An operation answers with [Ret]; [Bind]
    passes the answer on; [While] unrolls once.  [close] of the nil channel
    or of a closed channel panics; a receive polled by [select] with a
    [default] is ready exactly on a closed channel (nothing is ever sent),
    never on the nil channel. *)
Fixpoint step {A : Type} (tid : nat) (p : Prog A) (w : World) : Outcome A :=
  match p in Prog T return Outcome T with
  | Ret a => Done a
  | Bind m k =>
      match step tid m w with
      | Stepped m' w' sp => Stepped (Bind m' k) w' sp
      | Done x => Stepped (k x) w []
      | Panic => Panic
      end
  | Load => Stepped (Ret (dev w)) w []
  | StoreChRpt c => Stepped (Ret tt) (set_chRpt c w) []
  | MakeChan =>
      Stepped (Ret (next_chan w))
        {| dev := dev w; closed := closed w;
           next_chan := S (next_chan w); trace := trace w |} []
  | TryRecv c =>
      Stepped (Ret (match c with Some c => is_closed w c | None => false end)) w []
  | Close c =>
      match c with
      | None => Panic
      | Some c =>
          if is_closed w c then Panic
          else Stepped (Ret tt)
                 {| dev := dev w; closed := c :: closed w;
                    next_chan := next_chan w; trace := trace w |} []
      end
  | Sleep d => Stepped (Ret tt) (emit tid (EvSleep d) w) []
  | PwmSet channel value => Stepped (Ret tt) (emit tid (EvPwmSet channel value) w) []
  | Go g => Stepped (Ret tt) w [g]
  | While body =>
      Stepped (b <- body ;; if b then While body else Ret tt) w []
  end.

(** The caller, the goroutines started so far, and the shared state. *)
Record Config (R : Type) : Type := {
  fg : Prog R;
  gs : list (Prog unit);
  world : World
}.
Arguments fg {R}.
Arguments gs {R}.
Arguments world {R}.

Fixpoint replace_nth {X : Type} (i : nat) (x : X) (l : list X) {struct l}
  : list X :=
  match l, i with
  | [], _ => []
  | _ :: l', O => x :: l'
  | y :: l', S i' => y :: replace_nth i' x l'
  end.

(** The scheduler lets thread [tid] take one step; a thread that has
    returned or panicked, or that does not exist, cannot be scheduled. *)
Definition sched_step {R : Type} (tid : nat) (c : Config R) : option (Config R) :=
  match tid with
  | O =>
      match step tid (fg c) (world c) with
      | Stepped p w sp => Some {| fg := p; gs := gs c ++ sp; world := w |}
      | _ => None
      end
  | S i =>
      match nth_error (gs c) i with
      | Some g =>
          match step tid g (world c) with
          | Stepped g' w sp =>
              Some {| fg := fg c; gs := replace_nth i g' (gs c) ++ sp; world := w |}
          | _ => None
          end
      | None => None
      end
  end.

Definition mk {R : Type} (p : Prog R) (g : list (Prog unit)) (w : World)
  : Config R := {| fg := p; gs := g; world := w |}.

(** A schedule is the list of the threads that step, in order. *)
Fixpoint run {R : Type} (sched : list nat) (c : Config R) : option (Config R) :=
  match sched with
  | [] => Some c
  | tid :: sched' =>
      match sched_step tid c with
      | Some c' => run sched' c'
      | None => None
      end
  end.

(** The caller alone, for [n] steps. *)
Definition solo (n : nat) : list nat := repeat O n.

(** The program [p] called on device [ir], before anything else ran. *)
Definition boot {R : Type} (ir : SenderDevice) (p : Prog R) : Config R :=
  mk p [] {| dev := ir; closed := []; next_chan := O; trace := [] |}.

(** ** Reasoning about programs

    [wlp D p Q]: whatever the other threads do to the shared device (every
    read may answer anything), [p] only sleeps for durations in [D], also
    in the goroutines it starts, and if [p] returns [a] then [Q a]. *)
Fixpoint wlp {A : Type} (D : Duration -> Prop) (p : Prog A)
  : (A -> Prop) -> Prop :=
  match p in Prog T return (T -> Prop) -> Prop with
  | Ret a => fun Q => Q a
  | Bind m k => fun Q => wlp D m (fun x => wlp D (k x) Q)
  | Load => fun Q => forall ir, Q ir
  | StoreChRpt _ => fun Q => Q tt
  | MakeChan => fun Q => forall c, Q c
  | TryRecv _ => fun Q => forall b, Q b
  | Close _ => fun Q => Q tt
  | Sleep d => fun Q => D d /\ Q tt
  | PwmSet _ _ => fun Q => Q tt
  | Go g => fun Q => wlp D g (fun _ => True) /\ Q tt
  | While body => fun Q => wlp D body (fun _ => True) /\ Q tt
  end.

Definition any_sleep : Duration -> Prop := fun _ => True.
Definition positive_sleep : Duration -> Prop := fun d => 0 < d.

(** Every sleep recorded in a trace lasts for a duration in [D]. *)
Definition sleeps_in (D : Duration -> Prop) (t : list (nat * Event)) : Prop :=
  Forall (fun e => match snd e with EvSleep d => D d | EvPwmSet _ _ => True end) t.

(** A goroutine that only sleeps for durations in [D], and the invariant
    of a configuration: the caller keeps [wlp D _ Q], the goroutines only
    sleep for durations in [D], and so did the outputs made so far. *)
Definition thread_ok (D : Duration -> Prop) (g : Prog unit) : Prop :=
  wlp D g (fun _ => True).

Definition safe {R : Type} (D : Duration -> Prop) (Q : R -> Prop)
    (c : Config R) : Prop :=
  wlp D (fg c) Q /\ Forall (thread_ok D) (gs c) /\
  sleeps_in D (trace (world c)).

(** The caller, running alone from configuration [c], returns [a] and
    leaves configuration [c']. *)
Definition returns {R : Type} (c : Config R) (a : R) (c' : Config R) : Prop :=
  exists n, run (solo n) c = Some c' /\ fg c' = Ret a.

(** ** Durations of the specification *)

(** The number of 1 bits of a byte, and of the four bytes sent. *)
Definition popcount8 (b : Z) : Z :=
  fold_right (fun i n => (if Z.testbit b i then 1 else 0) + n) 0
    [0; 1; 2; 3; 4; 5; 6; 7].

Definition ones_sent (addrLow addrHigh cmd invCmd : Z) : Z :=
  popcount8 addrLow + popcount8 addrHigh + popcount8 cmd + popcount8 invCmd.

(** The duration the spec gives for a full transmission with [k] 1 bits. *)
Definition frame_duration (k : Z) : Duration :=
  nec_lead_mark + nec_lead_space + 32 * nec_bit_mark + nec_trail_mark
  + k * nec_bit_1_space + (32 - k) * nec_bit_0_space.

(** The longest full transmission: all 32 bits are 1. *)
Definition max_frame_duration : Duration :=
  nec_lead_mark + nec_lead_space + 32 * (nec_bit_mark + nec_bit_1_space)
  + nec_trail_mark.

(** ** A race between the caller and two repeat goroutines *)

Definition burst (tid n : nat) : list nat := repeat tid n.

Definition pwm0 : PWM := {| Channel := fun _ => (2, false); Top := 1000 |}.

(** A configuration that leaves the duty cycle at its default. *)
Definition config0 : SenderConfig :=
  {| ConfigPin := 15; ConfigPWM := pwm0; ModulationDutyCycle := 0 |}.

Definition sender0 : SenderDevice := NewSender config0.

(** [ir.SendNEC(4, 8, true); ir.SendNEC(4, 8, true); ir.StopNECRepeats()]. *)
Definition client : Prog unit :=
  SendNEC 0x04 0x08 true ;; SendNEC 0x04 0x08 true ;; StopNECRepeats.

Definition race_schedule : list nat :=
  (* SendNEC sends the frame, makes channel 0 and starts goroutine 1 *)
  solo 386 ++
  (* the second SendNEC finds ir.chRpt set and closes channel 0 *)
  solo 11 ++
  (* goroutine 1 ends its first wait, finds channel 0 closed and sets
     ir.chRpt = nil; it is preempted before it tests the loop condition *)
  burst 1 10 ++
  (* the caller reads nil, sends the frame, makes channel 1, stores it in
     ir.chRpt and starts goroutine 2 *)
  solo 388 ++
  (* goroutine 1 tests the loop condition, finds channel 1, polls it and
     takes the default branch; it is preempted before the carrier is on *)
  burst 1 11 ++
  (* StopNECRepeats closes channel 1 *)
  solo 11 ++
  (* goroutine 2 ends its first wait, finds channel 1 closed, sets
     ir.chRpt = nil and exits *)
  burst 2 16 ++
  (* the caller reads nil: StopNECRepeats returns *)
  solo 6.

(** The outputs of one repeat frame and the wait after it, by thread [tid]
    on the PWM channel and duty of [sender0]. *)
Definition repeat_frame_trace (tid : nat) : list (nat * Event) :=
  [(tid, EvPwmSet 2 330); (tid, EvSleep nec_lead_mark); (tid, EvPwmSet 2 0);
   (tid, EvSleep nec_repeat_space);
   (tid, EvPwmSet 2 330); (tid, EvSleep nec_trail_mark); (tid, EvPwmSet 2 0);
   (tid, EvSleep (nec_repeat_period - (nec_lead_mark + nec_repeat_space + nec_trail_mark)))].

(** The space sent for bit [i] of byte [b], and for the bits [bits] of [b]. *)
Definition bit_space (b i : Z) : Duration :=
  if Z.testbit b i then nec_bit_1_space else nec_bit_0_space.

Definition spaces (b : Z) (bits : list Z) : Duration :=
  fold_right (fun i n => bit_space b i + n) 0 bits.

Definition byte_spaces (bs : list Z) : Duration :=
  fold_right (fun b n => spaces b [0; 1; 2; 3; 4; 5; 6; 7] + n) 0 bs.

(** The sleeps of a transmission and of the wait for a cancelled session. *)
Definition protocol_sleeps (D : Duration -> Prop) : Prop :=
  D nec_lead_mark /\ D nec_lead_space /\ D nec_bit_mark /\
  D nec_bit_0_space /\ D nec_bit_1_space /\ D nec_trail_mark /\
  D (nec_unit * 40).

(** A program without [close] and without loop: it cannot panic and it
    returns, whatever the shared state. *)
Fixpoint straight {A : Type} (p : Prog A) : Prop :=
  match p with
  | Bind m k => straight m /\ forall a, straight (k a)
  | Close _ => False
  | While _ => False
  | _ => True
  end.

(** The outputs of thread [tid] in a trace. *)
Definition outputs_of (tid : nat) (t : list (nat * Event)) : list (nat * Event) :=
  filter (fun e => Nat.eqb (fst e) tid) t.

(** A cancellation without race, for comparison:
    [ir.SendNEC(4, 8, true); ir.StopNECRepeats()]. *)
Definition client1 : Prog unit :=
  SendNEC 0x04 0x08 true ;; StopNECRepeats.

Definition orderly_schedule : list nat :=
  (* SendNEC sends the frame, makes channel 0 and starts goroutine 1 *)
  solo 386 ++
  (* goroutine 1 ends its first wait and is in the middle of a repeat frame *)
  burst 1 18 ++
  (* StopNECRepeats closes channel 0, polls it and sleeps *)
  solo 21 ++
  (* goroutine 1 ends the frame and its wait, finds channel 0 closed, sets
     ir.chRpt = nil, tests the loop condition and exits *)
  burst 1 27 ++
  (* the caller reads nil: StopNECRepeats returns *)
  solo 6.

(** ** The wire bytes of an address *)

(** The address-high byte that [SplitNECAddress] gives back after
    [MakeNECAddress] read the wire bytes [(lo, hi)]: a zero high byte comes
    back as the complement of the low byte. *)
Definition rewritten_high (lo hi : Z) : Z :=
  if hi =? 0 then not8 lo else hi.

(** ** The outputs of a transmission *)

(** The channel and the value [mark] passes to [ir.pwm.Set] to switch the
    carrier on. *)
Definition pwm_channel (ir : SenderDevice) : Z :=
  fst (Channel (pwm ir) (pin ir)).

Definition duty (ir : SenderDevice) : Z :=
  u32 (Top (pwm ir) * u32 (pwmDC ir)) / 100.

(** The outputs of [mark(d)]; of one bit; of a full frame of bytes, each
    byte least significant bit first; of a repeat frame. *)
Definition mark_events (ir : SenderDevice) (d : Duration) : list Event :=
  [EvPwmSet (pwm_channel ir) (duty ir); EvSleep d; EvPwmSet (pwm_channel ir) 0].

Definition bit_events (ir : SenderDevice) (b i : Z) : list Event :=
  mark_events ir nec_bit_mark ++ [EvSleep (bit_space b i)].

Definition frame_events (ir : SenderDevice) (bytes : list Z) : list Event :=
  mark_events ir nec_lead_mark ++ [EvSleep nec_lead_space]
  ++ flat_map (fun b => flat_map (bit_events ir b) [0; 1; 2; 3; 4; 5; 6; 7]) bytes
  ++ mark_events ir nec_trail_mark.

Definition repeat_events (ir : SenderDevice) : list Event :=
  mark_events ir nec_lead_mark ++ [EvSleep nec_repeat_space]
  ++ mark_events ir nec_trail_mark.

(** The world after thread [tid] made the outputs [evs]. *)
Definition emits (tid : nat) (evs : list Event) (w : World) : World :=
  fold_left (fun w e => emit tid e w) evs w.

(** The time slept in a list of outputs, and the value last written to the
    PWM ([v0] if none was). *)
Definition slept (evs : list Event) : Duration :=
  fold_right (fun e n => match e with EvSleep d => d + n | EvPwmSet _ _ => n end)
    0 evs.

Definition carrier (v0 : Z) (evs : list Event) : Z :=
  fold_left (fun v e => match e with EvPwmSet _ v' => v' | EvSleep _ => v end)
    evs v0.

(** The duration the inner loops of [SendNECRawBytes] add up for the bits
    [bits] of [b], with the additions of the source. *)
Definition add_bits (b : Z) (bits : list Z) (tx : Duration) : Duration :=
  fold_left (fun tx i => dadd tx (bit_space b i)) bits tx.

Definition add_bytes (bs : list Z) (tx : Duration) : Duration :=
  fold_left (fun tx b => add_bits b [0; 1; 2; 3; 4; 5; 6; 7] tx) bs tx.

(** * Properties of the codec *)

Section ByteFacts.

Lemma not8_sub b : is_u8 b -> not8 b = 0xFF - b.
Proof.
  unfold is_u8, not8, u8, Z.lnot, Z.pred. intros Hb.
  Z.div_mod_to_equations. lia.
Qed.

Lemma not8_range b : is_u8 b -> is_u8 (not8 b).
Proof. intros Hb. rewrite not8_sub by assumption. unfold is_u8 in *. lia. Qed.

Lemma not8_involutive b : is_u8 b -> not8 (not8 b) = b.
Proof.
  intros Hb. rewrite (not8_sub b) by assumption.
  rewrite not8_sub by (unfold is_u8 in *; lia). lia.
Qed.

(** Masking then shifting selects one byte of the word. *)
Lemma field0 x : u8 (Z.land x 0xff) = raw_byte 0 x.
Proof.
  unfold u8, raw_byte. change 0xff with (Z.ones 8).
  change (2 ^ (8 * 0)) with 1. rewrite Z.div_1_r. Z.bitblast.
Qed.

Lemma field1 x : u8 (Z.shiftr (Z.land x 0xff00) 8) = raw_byte 1 x.
Proof.
  unfold u8, raw_byte. change 0xff00 with (Z.shiftl (Z.ones 8) 8).
  change (8 * 1) with 8. Z.bitblast.
Qed.

Lemma field2 x : u8 (Z.shiftr (Z.land x 0xff0000) 16) = raw_byte 2 x.
Proof.
  unfold u8, raw_byte. change 0xff0000 with (Z.shiftl (Z.ones 8) 16).
  change (8 * 2) with 16. Z.bitblast.
Qed.

Lemma field3 x : u8 (Z.shiftr (Z.land x 0xff000000) 24) = raw_byte 3 x.
Proof.
  unfold u8, raw_byte. change 0xff000000 with (Z.shiftl (Z.ones 8) 24).
  change (8 * 3) with 24. Z.bitblast.
Qed.

(** Bytes shifted to disjoint positions are summed by [Z.lor]. *)
Lemma lor_shiftl_add hi lo k :
  0 <= k -> 0 <= lo < 2 ^ k -> Z.lor (Z.shiftl hi k) lo = hi * 2 ^ k + lo.
Proof.
  intros Hk Hlo. rewrite Z.or_to_plus.
  - now rewrite Z.shiftl_mul_pow2.
  - rewrite <- (Z.mod_small lo (2 ^ k)) by assumption. Z.bitblast.
    now rewrite (Z.testbit_neg_r hi) by lia.
Qed.

Lemma lor_add a b k :
  0 <= k -> a mod 2 ^ k = 0 -> 0 <= b < 2 ^ k -> Z.lor a b = a + b.
Proof.
  intros Hk Ha Hb.
  assert (E : a = Z.shiftl (a / 2 ^ k) k).
  { rewrite Z.shiftl_mul_pow2 by assumption.
    pose proof (Z.pow_pos_nonneg 2 k eq_refl Hk).
    rewrite (Z.div_mod a (2 ^ k)) at 1 by lia. lia. }
  rewrite E at 1. rewrite lor_shiftl_add by assumption.
  now rewrite <- Z.shiftl_mul_pow2, <- E.
Qed.

End ByteFacts.

Section Codec.

Lemma raw_byte_range k x : is_u8 (raw_byte k x).
Proof.
  unfold is_u8, raw_byte.
  pose proof (Z.mod_pos_bound (x / 2 ^ (8 * k)) (2 ^ 8) eq_refl). lia.
Qed.

(** Address decomposition in arithmetic form. *)
Lemma SplitNECAddress_eq address :
  SplitNECAddress address =
    (raw_byte 0 address,
     if raw_byte 1 address =? 0 then 0xFF - raw_byte 0 address
     else raw_byte 1 address).
Proof.
  unfold SplitNECAddress. rewrite field0, field1.
  rewrite not8_sub by apply raw_byte_range. reflexivity.
Qed.

(** Address resolution in arithmetic form. *)
Lemma MakeNECAddress_eq lo hi :
  is_u8 lo -> is_u8 hi ->
  MakeNECAddress lo hi = if hi =? 0xFF - lo then lo else hi * 2 ^ 8 + lo.
Proof.
  unfold MakeNECAddress, is_u8. intros Hlo Hhi.
  rewrite not8_sub by assumption.
  unfold u16. rewrite (Z.mod_small lo), (Z.mod_small hi) by lia.
  rewrite Z.shiftl_mul_pow2 by lia.
  rewrite (Z.mod_small (hi * 2 ^ 8)) by lia.
  rewrite (lor_add _ _ 8) by (try apply Z.mod_mul; lia). reflexivity.
Qed.

Lemma SplitNECAddress_range address :
  is_u8 (fst (SplitNECAddress address)) /\ is_u8 (snd (SplitNECAddress address)).
Proof.
  rewrite SplitNECAddress_eq. cbn [fst snd].
  pose proof (raw_byte_range 0 address) as H0.
  pose proof (raw_byte_range 1 address) as H1.
  destruct (Z.eqb_spec (raw_byte 1 address) 0); unfold is_u8 in *; lia.
Qed.

(** The raw code in arithmetic form. *)
Lemma MakeRawNECData_eq address command :
  is_u8 command ->
  MakeRawNECData address command =
    (0xFF - command) * 2 ^ 24 + command * 2 ^ 16
    + snd (SplitNECAddress address) * 2 ^ 8 + fst (SplitNECAddress address).
Proof.
  intros Hc. unfold MakeRawNECData.
  destruct (SplitNECAddress_range address) as [Hlo Hhi].
  destruct (SplitNECAddress address) as [lo hi]. cbn [fst snd] in *.
  rewrite not8_sub by assumption.
  unfold is_u8 in *. unfold u32.
  rewrite (Z.mod_small lo), (Z.mod_small hi), (Z.mod_small command),
    (Z.mod_small (0xFF - command)) by lia.
  rewrite !Z.shiftl_mul_pow2 by lia.
  rewrite (Z.mod_small (hi * 2 ^ 8)), (Z.mod_small (command * 2 ^ 16)),
    (Z.mod_small ((0xFF - command) * 2 ^ 24)) by lia.
  rewrite (lor_add _ (command * 2 ^ 16) 24) by (Z.div_mod_to_equations; lia).
  rewrite (lor_add _ (hi * 2 ^ 8) 16) by (Z.div_mod_to_equations; lia).
  rewrite (lor_add _ lo 8) by (Z.div_mod_to_equations; lia).
  reflexivity.
Qed.

Lemma SplitRawNECData_eq data :
  SplitRawNECData data =
    (raw_byte 2 data =? 0xFF - raw_byte 3 data,
     MakeNECAddress (raw_byte 0 data) (raw_byte 1 data),
     raw_byte 2 data).
Proof.
  unfold SplitRawNECData. rewrite field0, field1, field2, field3.
  rewrite not8_sub by apply raw_byte_range.
  now destruct (raw_byte 2 data =? 0xFF - raw_byte 3 data).
Qed.

(** The bytes of a word assembled from four bytes. *)
Lemma raw_byte_pack b0 b1 b2 b3 :
  is_u8 b0 -> is_u8 b1 -> is_u8 b2 -> is_u8 b3 ->
  let w := b3 * 2 ^ 24 + b2 * 2 ^ 16 + b1 * 2 ^ 8 + b0 in
  raw_byte 0 w = b0 /\ raw_byte 1 w = b1 /\ raw_byte 2 w = b2 /\ raw_byte 3 w = b3.
Proof.
  unfold is_u8, raw_byte. intros H0 H1 H2 H3. cbv zeta.
  change (8 * 0) with 0. change (8 * 1) with 8.
  change (8 * 2) with 16. change (8 * 3) with 24.
  repeat split; Z.div_mod_to_equations; lia.
Qed.

Lemma u16_bytes address :
  is_u16 address ->
  Z.land address 0xFF = raw_byte 0 address /\
  Z.shiftr address 8 = raw_byte 1 address /\
  address = raw_byte 1 address * 2 ^ 8 + raw_byte 0 address.
Proof.
  unfold is_u16, raw_byte. intros Ha.
  change 0xFF with (Z.ones 8). rewrite Z.land_ones, Z.shiftr_div_pow2 by lia.
  change (8 * 0) with 0. change (8 * 1) with 8.
  repeat split; Z.div_mod_to_equations; lia.
Qed.

(** Decoding an encoded pair, whatever the address. *)
Lemma decode_encode address command :
  is_u8 command ->
  SplitRawNECData (MakeRawNECData address command) =
    (true, canonical_address address, command).
Proof.
  intros Hc. rewrite SplitRawNECData_eq, MakeRawNECData_eq by assumption.
  unfold canonical_address.
  destruct (SplitNECAddress_range address) as [Hlo Hhi].
  destruct (SplitNECAddress address) as [lo hi]. cbn [fst snd] in *.
  assert (Hn : is_u8 (0xFF - command)) by (unfold is_u8 in *; lia).
  destruct (raw_byte_pack lo hi command (0xFF - command) Hlo Hhi Hc Hn)
    as (-> & -> & -> & ->).
  replace (0xFF - (0xFF - command)) with command by lia.
  now rewrite Z.eqb_refl.
Qed.

(** Decompose-then-resolve keeps an address unless its high byte is zero
    or the complement of its low byte; then only the low byte is left. *)
Lemma canonical_address_eq address :
  is_u16 address ->
  canonical_address address =
    if (raw_byte 1 address =? 0) || (raw_byte 1 address =? 0xFF - raw_byte 0 address)
    then raw_byte 0 address else address.
Proof.
  intros Ha. unfold canonical_address.
  destruct (SplitNECAddress_range address) as [Hlo Hhi].
  rewrite SplitNECAddress_eq in *. cbn [fst snd] in *.
  rewrite MakeNECAddress_eq by assumption.
  destruct (u16_bytes address Ha) as (_ & _ & E).
  destruct (Z.eqb_spec (raw_byte 1 address) 0) as [E1 | N1]; cbn [orb].
  - now rewrite Z.eqb_refl.
  - destruct (raw_byte 1 address =? 0xFF - raw_byte 0 address); congruence.
Qed.

End Codec.

(** C1: for every address in 0..=0xFF and every command in 0..=0xFF, and
    for every address in 0x100..=0xFFFF whose high byte is not the bitwise
    complement of its low byte, decoding the encoded raw code gives back
    [(true, address, command)]. *)
Theorem roundtrip_identity (address command : Z) :
  is_u8 command ->
  0 <= address <= 0xFF \/
  (0x100 <= address <= 0xFFFF /\
   Z.shiftr address 8 <> not8 (Z.land address 0xFF)) ->
  SplitRawNECData (MakeRawNECData address command) = (true, address, command).
Proof.
  intros Hc Ha. rewrite decode_encode by assumption.
  assert (Hu : is_u16 address) by (unfold is_u16; lia).
  rewrite canonical_address_eq by assumption.
  destruct (u16_bytes address Hu) as (E0 & E1 & E).
  pose proof (raw_byte_range 0 address) as R0. unfold is_u8 in R0.
  destruct Ha as [Ha | [Ha Hne]].
  - assert (H1 : raw_byte 1 address = 0).
    { unfold raw_byte in *. change (8 * 1) with 8. Z.div_mod_to_equations. lia. }
    rewrite H1 in *. cbn [Z.eqb orb]. f_equal. f_equal. lia.
  - rewrite E0, E1, not8_sub in Hne by apply raw_byte_range.
    destruct (Z.eqb_spec (raw_byte 1 address) 0) as [H1 | _]; [lia |].
    destruct (Z.eqb_spec (raw_byte 1 address) (0xFF - raw_byte 0 address));
      [contradiction | reflexivity].
Qed.

Lemma roundtrip_identity_witness :
  SplitRawNECData (MakeRawNECData 0xF00D 0x5A) = (true, 0xF00D, 0x5A).
Proof.
  apply (roundtrip_identity 0xF00D 0x5A).
  - unfold is_u8. lia.
  - right. split; [lia | vm_compute; discriminate].
Defined.

(** C2: for every address in 0x100..=0xFFFF whose high byte equals the
    bitwise complement of its low byte, and every command, decoding the
    encoded raw code gives [(true, address & 0xFF, command)]. *)
Theorem roundtrip_collapse (address command : Z) :
  is_u8 command ->
  0x100 <= address <= 0xFFFF ->
  Z.shiftr address 8 = not8 (Z.land address 0xFF) ->
  SplitRawNECData (MakeRawNECData address command) =
    (true, Z.land address 0xFF, command).
Proof.
  intros Hc Ha Heq. rewrite decode_encode by assumption.
  assert (Hu : is_u16 address) by (unfold is_u16; lia).
  rewrite canonical_address_eq by assumption.
  destruct (u16_bytes address Hu) as (E0 & E1 & E).
  rewrite E0, E1, not8_sub in Heq by apply raw_byte_range.
  rewrite E0, Heq, Z.eqb_refl, Bool.orb_true_r. reflexivity.
Qed.

Lemma roundtrip_collapse_witness :
  SplitRawNECData (MakeRawNECData 0xF00F 0x5A) = (true, Z.land 0xF00F 0xFF, 0x5A).
Proof.
  apply (roundtrip_collapse 0xF00F 0x5A).
  - unfold is_u8. lia.
  - lia.
  - reflexivity.
Defined.

(** C10: decompose-then-resolve is idempotent on 16-bit addresses. *)
Theorem canonical_address_idempotent (address : Z) :
  is_u16 address ->
  canonical_address (canonical_address address) = canonical_address address.
Proof.
  intros Ha. rewrite (canonical_address_eq address Ha).
  pose proof (raw_byte_range 0 address) as R0.
  destruct ((raw_byte 1 address =? 0)
            || (raw_byte 1 address =? 0xFF - raw_byte 0 address)) eqn:E.
  - set (lo := raw_byte 0 address) in *.
    assert (Hlo : is_u16 lo) by (unfold is_u8, is_u16 in *; lia).
    rewrite canonical_address_eq by assumption.
    assert (Z1 : raw_byte 1 lo = 0).
    { unfold raw_byte, is_u8 in *. change (8 * 1) with 8.
      Z.div_mod_to_equations. lia. }
    assert (Z0 : raw_byte 0 lo = lo).
    { unfold raw_byte, is_u8 in *. change (8 * 0) with 0.
      Z.div_mod_to_equations. lia. }
    rewrite Z1, Z0. reflexivity.
  - rewrite canonical_address_eq by assumption. now rewrite E.
Qed.

Lemma canonical_address_idempotent_witness :
  canonical_address (canonical_address 0xF00F) = canonical_address 0xF00F.
Proof. apply canonical_address_idempotent. unfold is_u16. lia. Defined.

(** C7: the encoder decomposes the address into (low, high) and packs
    [low | high<<8 | command<<16 | not(command)<<24]; the five vectors of
    the spec hold. *)
Theorem encoding_layout :
  (forall address command,
      is_u16 address -> is_u8 command ->
      MakeRawNECData address command = spec_encode_raw address command) /\
  MakeRawNECData 0x0000 0x00 = 0xFF00FF00 /\
  MakeRawNECData 0x0000 0xFF = 0x00FFFF00 /\
  MakeRawNECData 0x00FF 0x00 = 0xFF0000FF /\
  MakeRawNECData 0x0100 0x00 = 0xFF000100 /\
  MakeRawNECData 0xFE00 0x00 = 0xFF00FE00.
Proof.
  split; [| repeat split; reflexivity].
  intros address command Ha Hc.
  rewrite MakeRawNECData_eq by assumption.
  destruct (SplitNECAddress_range address) as [Hlo Hhi].
  rewrite SplitNECAddress_eq in *. cbn [fst snd] in *.
  unfold spec_encode_raw, spec_decompose.
  destruct (u16_bytes address Ha) as (-> & -> & _).
  rewrite !not8_sub by (assumption || apply raw_byte_range).
  set (lo := raw_byte 0 address) in *.
  set (hi := if raw_byte 1 address =? 0 then _ else _) in *.
  unfold is_u8 in *. clearbody lo hi.
  rewrite !Z.shiftl_mul_pow2 by lia.
  rewrite (Z.lor_comm lo), (lor_add _ lo 8) by (Z.div_mod_to_equations; lia).
  rewrite (Z.lor_comm _ (command * 2 ^ 16)), (lor_add (command * 2 ^ 16) _ 16)
    by (Z.div_mod_to_equations; lia).
  rewrite (Z.lor_comm _ ((0xFF - command) * 2 ^ 24)), (lor_add _ _ 24)
    by (Z.div_mod_to_equations; lia).
  lia.
Qed.

Lemma encoding_layout_witness :
  MakeRawNECData 0xF00D 0x5A = spec_encode_raw 0xF00D 0x5A.
Proof.
  apply (proj1 encoding_layout 0xF00D 0x5A); [unfold is_u16 | unfold is_u8]; lia.
Defined.

Section BitFlip.

Lemma raw_byte_lxor k a b :
  0 <= k -> raw_byte k (Z.lxor a b) = Z.lxor (raw_byte k a) (raw_byte k b).
Proof.
  intros Hk. unfold raw_byte.
  assert (0 <= 8 * k) by lia. generalize dependent (8 * k). intros n Hn.
  Z.bitblast.
Qed.

Lemma lxor_fixed a m : Z.lxor a m = a -> m = 0.
Proof.
  intros H. apply (f_equal (Z.lxor a)) in H.
  now rewrite <- Z.lxor_assoc, Z.lxor_nilpotent, Z.lxor_0_l in H.
Qed.

(** One bit of the upper half of the word lies in exactly one of the
    command byte and the inverted-command byte. *)
Lemma raw_byte_flip i :
  16 <= i < 32 ->
  (raw_byte 2 (2 ^ i) <> 0 /\ raw_byte 3 (2 ^ i) = 0) \/
  (raw_byte 2 (2 ^ i) = 0 /\ raw_byte 3 (2 ^ i) <> 0).
Proof.
  intros Hi.
  assert (E : i = 16 \/ i = 17 \/ i = 18 \/ i = 19 \/ i = 20 \/ i = 21 \/
              i = 22 \/ i = 23 \/ i = 24 \/ i = 25 \/ i = 26 \/ i = 27 \/
              i = 28 \/ i = 29 \/ i = 30 \/ i = 31) by lia.
  repeat (destruct E as [-> | E]; [vm_compute; intuition discriminate |]).
  subst i. vm_compute. intuition discriminate.
Qed.

End BitFlip.

(** C5: the decoder reports [valid] exactly when the command byte is the
    complement of the inverted-command byte; address and command come from
    the raw bits whether or not the code is valid; one flipped bit in the
    command byte or the inverted-command byte of a valid code makes it
    invalid. *)
Theorem decode_validity (data : Z) :
  is_u32 data ->
  let '(valid, address, command) := SplitRawNECData data in
  (valid = true <-> raw_byte 2 data = not8 (raw_byte 3 data)) /\
  address = MakeNECAddress (raw_byte 0 data) (raw_byte 1 data) /\
  command = raw_byte 2 data /\
  (valid = true ->
   forall i, 16 <= i < 32 ->
     is_u32 (Z.lxor data (2 ^ i)) /\
     fst (fst (SplitRawNECData (Z.lxor data (2 ^ i)))) = false).
Proof.
  intros Hd. rewrite SplitRawNECData_eq.
  rewrite not8_sub by apply raw_byte_range.
  split; [apply Z.eqb_eq |]. split; [reflexivity |]. split; [reflexivity |].
  intros Hv i Hi. apply Z.eqb_eq in Hv. split.
  - unfold is_u32 in *.
    assert (Hr : Z.lxor data (2 ^ i) = (Z.lxor data (2 ^ i)) mod 2 ^ 32).
    { rewrite <- (Z.mod_small data (2 ^ 32)) at 1 by lia.
      assert (H0 : 0 <= i) by lia.
      Z.bitblast. destruct (Z.eqb_spec i i0); [lia | reflexivity]. }
    rewrite Hr. pose proof (Z.mod_pos_bound (Z.lxor data (2 ^ i)) (2 ^ 32) eq_refl).
    lia.
  - rewrite SplitRawNECData_eq. cbn [fst].
    rewrite !raw_byte_lxor by lia.
    apply Z.eqb_neq. intros Heq.
    destruct (raw_byte_flip i Hi) as [[N2 Z3] | [Z2 N3]].
    + rewrite Z3, Z.lxor_0_r, <- Hv in Heq. now apply lxor_fixed in Heq.
    + rewrite Z2, Z.lxor_0_r in Heq.
      pose proof (raw_byte_range 3 data) as R3.
      pose proof (raw_byte_range 3 (Z.lxor data (2 ^ i))) as R3'.
      rewrite raw_byte_lxor in R3' by lia.
      assert (Z.lxor (raw_byte 3 data) (raw_byte 3 (2 ^ i)) = raw_byte 3 data)
        by lia.
      now apply lxor_fixed in H.
Qed.

Lemma decode_validity_witness :
  let '(valid, address, command) := SplitRawNECData 0x00FFFF00 in
  (valid = true <-> raw_byte 2 0x00FFFF00 = not8 (raw_byte 3 0x00FFFF00)) /\
  address = MakeNECAddress (raw_byte 0 0x00FFFF00) (raw_byte 1 0x00FFFF00) /\
  command = raw_byte 2 0x00FFFF00 /\
  (valid = true ->
   forall i, 16 <= i < 32 ->
     is_u32 (Z.lxor 0x00FFFF00 (2 ^ i)) /\
     fst (fst (SplitRawNECData (Z.lxor 0x00FFFF00 (2 ^ i)))) = false).
Proof. apply (decode_validity 0x00FFFF00). unfold is_u32. lia. Defined.

(** * Schedules *)

Section Schedules.

Context {R : Type}.

Lemma run_app (s1 s2 : list nat) (c : Config R) :
  run (s1 ++ s2) c =
    match run s1 c with Some c' => run s2 c' | None => None end.
Proof.
  revert c. induction s1 as [| tid s1 IH]; intros c; cbn [app run].
  - reflexivity.
  - destruct (sched_step tid c); [apply IH | reflexivity].
Qed.

End Schedules.

(** * Soundness of the program logic *)

(** A step that makes no output. *)
Ltac no_output :=
  exists []; cbn; rewrite app_nil_r; split; [reflexivity | constructor].

Section Wlp.

Variable D : Duration -> Prop.

Lemma wlp_mono {A : Type} (p : Prog A) (Q Q' : A -> Prop) :
  (forall a, Q a -> Q' a) -> wlp D p Q -> wlp D p Q'.
Proof.
  revert Q Q'.
  induction p as [A a | A B m IHm k IHk | | c | | c | c | d | ch v | g IHg | body IHb];
    intros Q Q' HQ; cbn [wlp]; try solve [auto | intuition auto].
  intros H. apply (IHm _ _ (fun x => IHk x Q Q' HQ) H).
Qed.

(** One step keeps the assertion, starts only goroutines that keep it,
    and appends only outputs allowed by [D]. *)
Lemma step_sound {A : Type} (tid : nat) (p : Prog A) (w : World) (Q : A -> Prop) :
  wlp D p Q ->
  match step tid p w with
  | Stepped p' w' sp =>
      wlp D p' Q /\ Forall (thread_ok D) sp /\
      exists evs, trace w' = trace w ++ evs /\ sleeps_in D evs
  | Done a => Q a
  | Panic => True
  end.
Proof.
  revert Q.
  induction p as [A a | A B m IHm k IHk | | c | | c | c | d | ch v | g IHg | body IHb];
    intros Q H; cbn [wlp step] in *.
  - exact H.
  - specialize (IHm _ H). destruct (step tid m w) as [m' w' sp | x |].
    + exact IHm.
    + repeat split; [exact IHm | constructor | no_output].
    + exact I.
  - repeat split; [apply H | constructor | no_output].
  - repeat split; [exact H | constructor | no_output].
  - repeat split; [apply H | constructor | no_output].
  - repeat split; [apply H | constructor | no_output].
  - destruct c as [c |]; [| exact I].
    destruct (is_closed w c); [exact I |].
    repeat split; [exact H | constructor | no_output].
  - destruct H as [Hd HQ]. repeat split; [exact HQ | constructor |].
    exists [(tid, EvSleep d)]. split; [reflexivity |].
    constructor; [exact Hd | constructor].
  - repeat split; [exact H | constructor |].
    exists [(tid, EvPwmSet ch v)]. split; [reflexivity |].
    constructor; [exact I | constructor].
  - destruct H as [Hg HQ]. repeat split; [exact HQ | | no_output].
    constructor; [exact Hg | constructor].
  - destruct H as [Hb HQ]. repeat split; [| constructor | no_output].
    apply (wlp_mono body (fun _ => True)); [| exact Hb].
    intros [|] _; cbn [wlp]; auto.
Qed.

Lemma Forall_replace_nth {X : Type} (P : X -> Prop) (i : nat) (x : X) (l : list X) :
  P x -> Forall P l -> Forall P (replace_nth i x l).
Proof.
  intros Hx Hl. revert i. induction Hl as [| y l Hy Hl IH]; intros i.
  - constructor.
  - destruct i; cbn [replace_nth]; constructor; auto.
Qed.

Lemma sched_step_safe {R : Type} (Q : R -> Prop) (tid : nat) (c c' : Config R) :
  safe D Q c -> sched_step tid c = Some c' -> safe D Q c'.
Proof.
  intros (Hfg & Hgs & Htr). unfold sched_step. destruct tid as [| i].
  - pose proof (step_sound 0 (fg c) (world c) Q Hfg) as Hs.
    destruct (step 0 (fg c) (world c)) as [p w sp | |]; try discriminate.
    intros [= <-]. destruct Hs as (Hp & Hsp & evs & Hev & Hin).
    repeat split; cbn [fg gs world].
    + exact Hp.
    + apply Forall_app. now split.
    + unfold sleeps_in in *. rewrite Hev. apply Forall_app. now split.
  - destruct (nth_error (gs c) i) as [g |] eqn:Eg; [| discriminate].
    assert (Hg : thread_ok D g).
    { rewrite Forall_forall in Hgs. apply Hgs. eapply nth_error_In, Eg. }
    pose proof (step_sound (S i) g (world c) _ Hg) as Hs.
    destruct (step (S i) g (world c)) as [g' w sp | |]; try discriminate.
    intros [= <-]. destruct Hs as (Hp & Hsp & evs & Hev & Hin).
    repeat split; cbn [fg gs world].
    + exact Hfg.
    + apply Forall_app. split; [| exact Hsp].
      now apply Forall_replace_nth.
    + unfold sleeps_in in *. rewrite Hev. apply Forall_app. now split.
Qed.

Lemma run_safe {R : Type} (Q : R -> Prop) (sched : list nat) (c c' : Config R) :
  safe D Q c -> run sched c = Some c' -> safe D Q c'.
Proof.
  revert c. induction sched as [| tid sched IH]; intros c Hc; cbn [run].
  - now intros [= <-].
  - destruct (sched_step tid c) as [c1 |] eqn:E; [| discriminate].
    apply IH. eapply sched_step_safe; eassumption.
Qed.

(** Under every schedule, a value returned by the caller satisfies the
    postcondition. *)
Lemma run_post {R : Type} (Q : R -> Prop) (sched : list nat) (c c' : Config R) (a : R) :
  safe D Q c -> run sched c = Some c' -> fg c' = Ret a -> Q a.
Proof.
  intros Hc Hrun Hret. destruct (run_safe Q sched c c' Hc Hrun) as (H & _).
  rewrite Hret in H. exact H.
Qed.

End Wlp.

(** With no constraint on the sleeps, every thread keeps the trivial
    assertion: the other goroutines of a configuration can be anything. *)
Lemma wlp_trivial {A : Type} (p : Prog A) : wlp any_sleep p (fun _ => True).
Proof.
  induction p as [A a | A B m IHm k IHk | | c | | c | c | d | ch v | g IHg | body IHb];
    cbn [wlp]; unfold any_sleep; auto.
  apply (wlp_mono any_sleep m (fun _ => True)); auto.
Qed.

Lemma safe_any {R : Type} (Q : R -> Prop) (c : Config R) :
  wlp any_sleep (fg c) Q -> safe any_sleep Q c.
Proof.
  intros H. repeat split; [exact H | |].
  - apply Forall_forall. intros g _. apply wlp_trivial.
  - apply Forall_forall. intros [tid [ch v | d]] _; exact I.
Qed.

(** * The transmission sequencer *)

Ltac nec_constants :=
  unfold nec_repeat_period, nec_lead_mark, nec_lead_space, nec_repeat_space,
    nec_bit_mark, nec_bit_0_space, nec_bit_1_space, nec_trail_mark, nec_unit,
    Nanosecond in *.

Section Durations.

Lemma i64_small z : - 2 ^ 63 <= z < 2 ^ 63 -> i64 z = z.
Proof. unfold i64. intros H. Z.div_mod_to_equations. lia. Qed.

Lemma bit_space_eq b i :
  bit_space b i =
    nec_bit_0_space
    + (nec_bit_1_space - nec_bit_0_space) * (if Z.testbit b i then 1 else 0).
Proof. unfold bit_space. destruct (Z.testbit b i); lia. Qed.

Lemma bit_space_bounds b i : 0 < bit_space b i <= nec_bit_1_space.
Proof. unfold bit_space. destruct (Z.testbit b i); vm_compute; intuition discriminate. Qed.

Lemma spaces_bounds b bits :
  0 <= spaces b bits <= nec_bit_1_space * Z.of_nat (length bits).
Proof.
  induction bits as [| i bits IH]; cbn [spaces fold_right length].
  - lia.
  - fold (spaces b bits). pose proof (bit_space_bounds b i).
    nec_constants. lia.
Qed.

Lemma spaces_popcount8 b :
  spaces b [0; 1; 2; 3; 4; 5; 6; 7] =
    popcount8 b * nec_bit_1_space + (8 - popcount8 b) * nec_bit_0_space.
Proof.
  unfold spaces, popcount8. cbn [fold_right]. rewrite !bit_space_eq.
  nec_constants. lia.
Qed.

Lemma popcount8_bounds b : 0 <= popcount8 b <= 8.
Proof.
  unfold popcount8. cbn [fold_right].
  assert (H : forall i, 0 <= (if Z.testbit b i then 1 else 0) <= 1)
    by (intros i; destruct (Z.testbit b i); lia).
  pose proof (H 0). pose proof (H 1). pose proof (H 2). pose proof (H 3).
  pose proof (H 4). pose proof (H 5). pose proof (H 6). pose proof (H 7).
  lia.
Qed.

(** The test of the inner loop reads bit [i] of the byte. *)
Lemma mask_test b i :
  0 <= i < 8 ->
  (Z.land b (u8 (Z.shiftl (u8 1) i)) =? 0) = negb (Z.testbit b i).
Proof.
  intros Hi.
  assert (E : u8 (Z.shiftl (u8 1) i) = 2 ^ i).
  { assert (C : i = 0 \/ i = 1 \/ i = 2 \/ i = 3 \/ i = 4 \/ i = 5 \/ i = 6 \/ i = 7)
      by lia.
    repeat (destruct C as [-> | C]; [reflexivity |]). subst i. reflexivity. }
  rewrite E.
  assert (L : Z.land b (2 ^ i) = if Z.testbit b i then 2 ^ i else 0).
  { apply Z.bits_inj'. intros n Hn. rewrite Z.land_spec.
    destruct (Z.testbit b i) eqn:Eb.
    - rewrite Z.pow2_bits_eqb by lia.
      destruct (Z.eqb_spec i n) as [-> | _];
        [now rewrite Eb | apply Bool.andb_false_r].
    - rewrite Z.pow2_bits_eqb, Z.bits_0 by lia.
      destruct (Z.eqb_spec i n) as [<- | _];
        [now rewrite Eb | apply Bool.andb_false_r]. }
  rewrite L. destruct (Z.testbit b i); cbn [negb].
  - apply Z.eqb_neq. pose proof (Z.pow_pos_nonneg 2 i eq_refl (proj1 Hi)). lia.
  - reflexivity.
Qed.

End Durations.

Section Transmission.

Variable D : Duration -> Prop.
Hypothesis HD : protocol_sleeps D.

Lemma wlp_mark (d : Duration) (Q : unit -> Prop) :
  D d -> Q tt -> wlp D (mark d) Q.
Proof.
  intros Hd HQ. unfold mark. cbn [wlp]. intros ir.
  destruct (Channel (pwm ir) (pin ir)) as [pwmChan err]. cbn [wlp]. auto.
Qed.

Lemma wlp_space (d : Duration) (Q : unit -> Prop) :
  D d -> Q tt -> wlp D (space d) Q.
Proof. intros Hd HQ. unfold space. cbn [wlp]. auto. Qed.

Lemma wlp_waitForAutoRepeatCancel (Q : unit -> Prop) :
  Q tt -> wlp D waitForAutoRepeatCancel Q.
Proof.
  intros HQ. unfold waitForAutoRepeatCancel. cbn [wlp]. split; [| exact HQ].
  intros ir. destruct (chRpt ir) as [c |]; cbn [wlp]; [| exact I].
  intros ir' [|]; cbn [wlp]; [| auto].
  split; [apply HD | exact I].
Qed.

Lemma wlp_send_bit (b tx i : Z) (Q : Duration -> Prop) :
  0 <= i < 8 -> Q (dadd tx (bit_space b i)) -> wlp D (send_bit b tx i) Q.
Proof.
  intros Hi HQ. unfold send_bit. cbv zeta. rewrite mask_test by assumption.
  destruct HD as (_ & _ & Hm & H0 & H1 & _).
  cbn [wlp]. apply wlp_mark; [exact Hm |].
  unfold bit_space in HQ. destruct (Z.testbit b i); cbn [negb wlp];
    (split; [assumption | exact HQ]).
Qed.

Lemma wlp_bits (b : Z) (bits : list Z) :
  Forall (fun i => 0 <= i < 8) bits ->
  forall (tx : Duration) (Q : Duration -> Prop),
    0 <= tx -> tx + nec_bit_1_space * Z.of_nat (length bits) < 2 ^ 63 ->
    Q (tx + spaces b bits) ->
    wlp D (for_each bits (send_bit b) tx) Q.
Proof.
  induction 1 as [| i bits Hi Hbits IH]; intros tx Q Htx Hmax HQ;
    cbn [for_each wlp spaces fold_right length] in *.
  - now rewrite Z.add_0_r in HQ.
  - fold (spaces b bits) in HQ. pose proof (bit_space_bounds b i) as Hb.
    apply wlp_send_bit; [exact Hi |].
    unfold dadd. rewrite i64_small by (nec_constants; lia).
    apply IH; [lia | nec_constants; lia |]. now rewrite <- Z.add_assoc.
Qed.

Lemma for_each_cons {St X : Type} (x : X) (xs : list X)
    (body : St -> X -> Prog St) (s : St) :
  for_each (x :: xs) body s = (s' <- body s x ;; for_each xs body s')%prog.
Proof. reflexivity. Qed.

Lemma wlp_bind {A B : Type} (m : Prog A) (k : A -> Prog B) (Q : B -> Prop) :
  wlp D (Bind m k) Q = wlp D m (fun x => wlp D (k x) Q).
Proof. reflexivity. Qed.

Lemma wlp_bytes (bs : list Z) :
  forall (tx : Duration) (Q : Duration -> Prop),
    0 <= tx -> tx + 8 * nec_bit_1_space * Z.of_nat (length bs) < 2 ^ 63 ->
    Q (tx + byte_spaces bs) ->
    wlp D (for_each bs
             (fun txDuration b =>
                for_each [0; 1; 2; 3; 4; 5; 6; 7] (send_bit b) txDuration) tx) Q.
Proof.
  induction bs as [| b bs IH]; intros tx Q Htx Hmax HQ;
    cbn [byte_spaces fold_right length] in *.
  - cbn [for_each wlp]. now rewrite Z.add_0_r in HQ.
  - fold (byte_spaces bs) in HQ. rewrite for_each_cons, wlp_bind.
    pose proof (spaces_bounds b [0; 1; 2; 3; 4; 5; 6; 7]) as Hb.
    cbn [length] in Hb.
    apply wlp_bits.
    + repeat constructor; lia.
    + exact Htx.
    + cbn [length]. nec_constants. lia.
    + apply IH; [lia | nec_constants; lia |]. now rewrite <- Z.add_assoc.
Qed.

Lemma byte_spaces_frame b0 b1 b2 b3 :
  nec_lead_mark + nec_lead_space + 32 * nec_bit_mark + nec_trail_mark
  + byte_spaces [b0; b1; b2; b3]
  = frame_duration (ones_sent b0 b1 b2 b3).
Proof.
  unfold byte_spaces, frame_duration, ones_sent. cbn [fold_right].
  rewrite !spaces_popcount8. nec_constants. lia.
Qed.

(** Whatever the repeat goroutines do meanwhile, a call of
    [SendNECRawBytes] that returns, returns the duration of the frame. *)
Lemma wlp_SendNECRawBytes (b0 b1 b2 b3 : Z) (Q : Duration -> Prop) :
  Q (frame_duration (ones_sent b0 b1 b2 b3)) ->
  wlp D (SendNECRawBytes b0 b1 b2 b3) Q.
Proof.
  intros HQ. unfold SendNECRawBytes. cbv zeta.
  destruct HD as (Hlm & Hls & _ & _ & _ & Htm & _).
  cbn [wlp]. apply wlp_waitForAutoRepeatCancel.
  apply wlp_mark; [exact Hlm |]. apply wlp_space; [exact Hls |].
  apply wlp_bytes.
  - vm_compute. discriminate.
  - vm_compute. reflexivity.
  - apply wlp_mark; [exact Htm |]. cbn [wlp].
    now rewrite byte_spaces_frame.
Qed.

End Transmission.

(** * Runs of the caller alone *)

Section Solo.

Lemma run_solo_S {R : Type} (n : nat) (c : Config R) :
  run (solo (S n)) c =
    match sched_step 0 c with Some c' => run (solo n) c' | None => None end.
Proof. reflexivity. Qed.

Lemma sched_step_caller {R : Type} (p : Prog R) g w :
  sched_step 0 (mk p g w) =
    match step 0 p w with
    | Stepped p' w' sp => Some (mk p' (g ++ sp) w')
    | _ => None
    end.
Proof. reflexivity. Qed.

Lemma solo_add (n1 n2 : nat) : solo (n1 + n2) = solo n1 ++ solo n2.
Proof. apply repeat_app. Qed.

(** The steps of [m] are the steps of [m] followed by a continuation. *)
Lemma solo_bind {A R : Type} (n : nat) (k : A -> Prog R) :
  forall (m m' : Prog A) g g' w w',
    run (solo n) (mk m g w) = Some (mk m' g' w') ->
    run (solo n) (mk (Bind m k) g w) = Some (mk (Bind m' k) g' w').
Proof.
  induction n as [| n IH]; intros m m' g g' w w'.
  - cbn [solo repeat run]. intros [= -> -> ->]. reflexivity.
  - rewrite !run_solo_S, !sched_step_caller. cbn [step].
    destruct (step 0 m w) as [m1 w1 sp | x |]; try discriminate.
    apply IH.
Qed.

Lemma returns_ret {R : Type} (a : R) g w :
  returns (mk (Ret a) g w) a (mk (Ret a) g w).
Proof. exists O. split; reflexivity. Qed.

Lemma returns_bind {A R : Type} (m : Prog A) (k : A -> Prog R)
    g w a g1 w1 b c' :
  returns (mk m g w) a (mk (Ret a) g1 w1) ->
  returns (mk (k a) g1 w1) b c' ->
  returns (mk (Bind m k) g w) b c'.
Proof.
  intros (n1 & H1 & _) (n2 & H2 & Hret).
  exists (n1 + S n2)%nat. split; [| exact Hret].
  rewrite solo_add, run_app, (solo_bind n1 k _ _ _ _ _ _ H1).
  rewrite run_solo_S, sched_step_caller. cbn [step].
  rewrite app_nil_r. exact H2.
Qed.

Lemma returns_step {R : Type} (p p' : Prog R) g w w' sp a c' :
  step 0 p w = Stepped p' w' sp ->
  returns (mk p' (g ++ sp) w') a c' ->
  returns (mk p g w) a c'.
Proof.
  intros Hs (n & Hn & Hret). exists (S n). split; [| exact Hret].
  rewrite run_solo_S, sched_step_caller, Hs. exact Hn.
Qed.

(** A program without [close] and loop returns from every state. *)
Lemma straight_returns {A : Type} (p : Prog A) :
  straight p ->
  forall g w, exists a g' w', returns (mk p g w) a (mk (Ret a) g' w').
Proof.
  induction p as [A a | A B m IHm k IHk | | c | | c | c | d | ch v | t IHt | body IHb];
    cbn [straight]; intros Hp g w; try contradiction;
    try solve [do 3 eexists; eapply returns_step;
               [reflexivity | apply returns_ret]].
  - exists a, g, w. apply returns_ret.
  - destruct Hp as [Hm Hk].
    destruct (IHm Hm g w) as (a & g1 & w1 & H1).
    destruct (IHk a (Hk a) g1 w1) as (b & g2 & w2 & H2).
    exists b, g2, w2. eapply returns_bind; eassumption.
Qed.

(** With no repeat session, the wait for its end returns at once. *)
Lemma waitForAutoRepeatCancel_idle g w :
  chRpt (dev w) = None ->
  exists g', returns (mk waitForAutoRepeatCancel g w) tt (mk (Ret tt) g' w).
Proof.
  intros Hidle. eexists. unfold waitForAutoRepeatCancel.
  eapply returns_step; [reflexivity |].
  eapply returns_bind.
  - eapply returns_bind.
    + eapply returns_step; [reflexivity | apply returns_ret].
    + cbv beta. rewrite Hidle. apply returns_ret.
  - cbv iota. apply returns_ret.
Qed.

Lemma straight_bind {A B : Type} (m : Prog A) (k : A -> Prog B) :
  straight m -> (forall a, straight (k a)) -> straight (Bind m k).
Proof. cbn [straight]. auto. Qed.

Lemma straight_mark d : straight (mark d).
Proof.
  unfold mark. cbn [straight]. split; [exact I |]. intros ir.
  destruct (Channel (pwm ir) (pin ir)). cbn [straight]. auto.
Qed.

Lemma straight_send_bit b tx i : straight (send_bit b tx i).
Proof.
  unfold send_bit. cbv zeta. cbn [straight]. split; [apply straight_mark |].
  intros _. destruct (_ =? 0); cbn [straight space]; auto.
Qed.

Lemma straight_for_each {St X : Type} (xs : list X) (body : St -> X -> Prog St) :
  (forall s x, straight (body s x)) -> forall s, straight (for_each xs body s).
Proof.
  intros Hb. induction xs as [| x xs IH]; intros s; cbn [for_each straight]; auto.
Qed.

(** On a sender with no repeat session, [SendNECRawBytes] returns. *)
Lemma SendNECRawBytes_returns b0 b1 b2 b3 g w :
  chRpt (dev w) = None ->
  exists d c', returns (mk (SendNECRawBytes b0 b1 b2 b3) g w) d c'.
Proof.
  intros Hidle. unfold SendNECRawBytes. cbv zeta.
  destruct (waitForAutoRepeatCancel_idle g w Hidle) as (g1 & Hw).
  match goal with
  | |- exists d c', returns (mk (Bind _ ?k) _ _) d c' =>
      destruct (straight_returns (k tt)) with (g := g1) (w := w)
        as (d & g2 & w2 & Hr)
  end.
  - apply straight_bind; [apply straight_mark | intros _].
    apply straight_bind; [exact I | intros _].
    apply straight_bind; [| intros tx].
    + apply straight_for_each. intros s x.
      apply straight_for_each. intros s' i. apply straight_send_bit.
    + apply straight_bind; [apply straight_mark | intros _]. exact I.
  - exists d, (mk (Ret d) g2 w2). eapply returns_bind; eassumption.
Qed.

End Solo.

(** * Properties of the sender *)

Section Outputs.

(** A step of thread [tid] appends only outputs of thread [tid]. *)
Lemma step_outputs {A : Type} (tid : nat) (p : Prog A) (w : World) :
  match step tid p w with
  | Stepped _ w' _ =>
      exists evs, trace w' = trace w ++ evs /\ Forall (fun e => fst e = tid) evs
  | _ => True
  end.
Proof.
  induction p as [A a | A B m IHm k IHk | | c | | c | c | d | ch v | g IHg | body IHb];
    cbn [step];
    try solve [no_output];
    try solve [eexists; split; [reflexivity | repeat constructor]].
  - exact I.
  - destruct (step tid m w) as [m' w' sp | x |];
      [exact IHm | no_output | exact I].
  - destruct c as [c |]; [| exact I].
    destruct (is_closed w c); [exact I | no_output].
Qed.

Lemma outputs_of_other (tid tid' : nat) (t evs : list (nat * Event)) :
  tid' <> tid -> Forall (fun e => fst e = tid') evs ->
  outputs_of tid (t ++ evs) = outputs_of tid t.
Proof.
  intros Hne Hevs. unfold outputs_of. rewrite filter_app.
  replace (filter _ evs) with (@nil (nat * Event)); [apply app_nil_r |].
  induction Hevs as [| e evs He _ IH]; cbn [filter]; [reflexivity |].
  rewrite He. destruct (Nat.eqb_spec tid' tid); [contradiction | exact IH].
Qed.

(** Once the caller has returned, no schedule makes it act again. *)
Lemma returned_stays {R : Type} (a : R) (sched : list nat) :
  forall c c' : Config R,
    fg c = Ret a -> run sched c = Some c' ->
    fg c' = Ret a /\
    outputs_of 0 (trace (world c')) = outputs_of 0 (trace (world c)).
Proof.
  induction sched as [| tid sched IH]; intros c c' Hret; cbn [run].
  - intros [= <-]. auto.
  - destruct (sched_step tid c) as [c1 |] eqn:E; [| discriminate].
    intros Hrun. unfold sched_step in E. destruct tid as [| i].
    + rewrite Hret in E. discriminate.
    + destruct (nth_error (gs c) i) as [g |]; [| discriminate].
      pose proof (step_outputs (S i) g (world c)) as Ho.
      destruct (step (S i) g (world c)) as [g' w sp | |]; try discriminate.
      injection E as <-. destruct Ho as (evs & Hev & Htid).
      destruct (IH _ c' (Hret : fg (mk (fg c) _ w) = Ret a) Hrun) as [H1 H2].
      split; [exact H1 |]. unfold mk in H2. cbn [world] in H2.
      rewrite H2, Hev.
      apply outputs_of_other with (tid' := S i); [discriminate | exact Htid].
Qed.

End Outputs.

Section FrameBounds.

Lemma ones_sent_bounds b0 b1 b2 b3 : 0 <= ones_sent b0 b1 b2 b3 <= 32.
Proof.
  unfold ones_sent.
  pose proof (popcount8_bounds b0). pose proof (popcount8_bounds b1).
  pose proof (popcount8_bounds b2). pose proof (popcount8_bounds b3). lia.
Qed.

Lemma frame_duration_bounds k :
  0 <= k <= 32 -> 89 * nec_unit <= frame_duration k <= max_frame_duration.
Proof. unfold frame_duration, max_frame_duration. nec_constants. lia. Qed.

Lemma any_sleep_protocol : protocol_sleeps any_sleep.
Proof. repeat split. Qed.

Lemma positive_protocol : protocol_sleeps positive_sleep.
Proof. repeat split. Qed.

End FrameBounds.

(** C4: for every four bytes, [SendNECRawBytes] returns
    [LEAD_MARK + LEAD_SPACE + 32*BIT_MARK + TRAIL_MARK + k*BIT_1_SPACE +
    (32-k)*BIT_0_SPACE] with [k] the number of 1 bits of the four bytes:
    under every schedule a returned value is this one, and on a sender with
    no repeat session the call returns. *)
Theorem SendNECRawBytes_duration (addrLow addrHigh cmd invCmd : Z) :
  is_u8 addrLow -> is_u8 addrHigh -> is_u8 cmd -> is_u8 invCmd ->
  let k := ones_sent addrLow addrHigh cmd invCmd in
  (forall (c c' : Config Duration) (sched : list nat) (d : Duration),
      fg c = SendNECRawBytes addrLow addrHigh cmd invCmd ->
      run sched c = Some c' -> fg c' = Ret d ->
      d = frame_duration k) /\
  (forall ir : SenderDevice,
      chRpt ir = None ->
      exists c',
        returns (boot ir (SendNECRawBytes addrLow addrHigh cmd invCmd))
          (frame_duration k) c').
Proof.
  intros _ _ _ _ k.
  assert (Hall : forall (c c' : Config Duration) sched d,
             fg c = SendNECRawBytes addrLow addrHigh cmd invCmd ->
             run sched c = Some c' -> fg c' = Ret d -> d = frame_duration k).
  { intros c c' sched d Hfg Hrun Hret.
    refine (run_post any_sleep (fun d => d = frame_duration k)
              sched c c' d _ Hrun Hret).
    apply safe_any. rewrite Hfg.
    apply wlp_SendNECRawBytes; [apply any_sleep_protocol | reflexivity]. }
  split; [exact Hall |].
  intros ir Hidle.
  destruct (SendNECRawBytes_returns addrLow addrHigh cmd invCmd []
              {| dev := ir; closed := []; next_chan := O; trace := [] |} Hidle)
    as (d & c' & Hr).
  exists c'. destruct Hr as (n & Hrun & Hret).
  rewrite <- (Hall (mk (SendNECRawBytes addrLow addrHigh cmd invCmd) [] _)
                c' (solo n) d eq_refl Hrun Hret).
  exists n. split; assumption.
Qed.

Lemma SendNECRawBytes_duration_witness :
  let k := ones_sent 0x04 0xFB 0x08 0xF7 in
  (forall (c c' : Config Duration) (sched : list nat) (d : Duration),
      fg c = SendNECRawBytes 0x04 0xFB 0x08 0xF7 ->
      run sched c = Some c' -> fg c' = Ret d ->
      d = frame_duration k) /\
  (forall ir : SenderDevice,
      chRpt ir = None ->
      exists c',
        returns (boot ir (SendNECRawBytes 0x04 0xFB 0x08 0xF7))
          (frame_duration k) c').
Proof.
  apply (SendNECRawBytes_duration 0x04 0xFB 0x08 0xF7); unfold is_u8; lia.
Defined.

Section RawCode.

Lemma SendNECRawCode_eq data :
  SendNECRawCode data =
    if raw_byte 2 data =? 0xFF - raw_byte 3 data then
      let '(addrLow, addrHigh) :=
        SplitNECAddress (MakeNECAddress (raw_byte 0 data) (raw_byte 1 data)) in
      SendNECRawBytes addrLow addrHigh (raw_byte 2 data) (not8 (raw_byte 2 data))
    else Ret 0.
Proof.
  unfold SendNECRawCode. rewrite SplitRawNECData_eq.
  now destruct (raw_byte 2 data =? 0xFF - raw_byte 3 data).
Qed.

End RawCode.

(** C6: on a raw code whose command byte is not the complement of its
    inverted-command byte, [SendNECRawCode] returns 0 and makes no output;
    on a valid raw code it returns a duration that is not 0. *)
Theorem SendNECRawCode_zero_iff_invalid (data : Z) :
  is_u32 data ->
  (raw_byte 2 data <> not8 (raw_byte 3 data) ->
   SendNECRawCode data = Ret 0 /\
   forall (c c' : Config Duration) (sched : list nat),
     fg c = SendNECRawCode data -> run sched c = Some c' ->
     fg c' = Ret 0 /\
     outputs_of 0 (trace (world c')) = outputs_of 0 (trace (world c))) /\
  (raw_byte 2 data = not8 (raw_byte 3 data) ->
   (forall (c c' : Config Duration) (sched : list nat) (d : Duration),
       fg c = SendNECRawCode data -> run sched c = Some c' -> fg c' = Ret d ->
       d <> 0) /\
   (forall ir : SenderDevice,
       chRpt ir = None ->
       exists d c', returns (boot ir (SendNECRawCode data)) d c' /\ d <> 0)).
Proof.
  intros _. rewrite not8_sub by apply raw_byte_range.
  rewrite SendNECRawCode_eq. split.
  - intros Hinv. apply Z.eqb_neq in Hinv. rewrite Hinv.
    split; [reflexivity |]. intros c c' sched Hfg Hrun.
    exact (returned_stays 0 sched c c' Hfg Hrun).
  - intros Hval. apply Z.eqb_eq in Hval. rewrite Hval.
    destruct (SplitNECAddress _) as [addrLow addrHigh].
    set (cmd := raw_byte 2 data). set (k := ones_sent addrLow addrHigh cmd (not8 cmd)).
    assert (Hk : frame_duration k <> 0).
    { pose proof (frame_duration_bounds k (ones_sent_bounds _ _ _ _)) as Hb.
      revert Hb. nec_constants. lia. }
    assert (Hall : forall (c c' : Config Duration) sched d,
               fg c = SendNECRawBytes addrLow addrHigh cmd (not8 cmd) ->
               run sched c = Some c' -> fg c' = Ret d -> d <> 0).
    { intros c c' sched d Hfg Hrun Hret.
      refine (run_post any_sleep (fun d => d <> 0) sched c c' d _ Hrun Hret).
      apply safe_any.
      pose proof (wlp_SendNECRawBytes any_sleep any_sleep_protocol
                    addrLow addrHigh cmd (not8 cmd) (fun d => d <> 0) Hk) as H.
      rewrite <- Hfg in H. exact H. }
    split; [exact Hall |].
    intros ir Hidle.
    destruct (SendNECRawBytes_returns addrLow addrHigh cmd (not8 cmd) []
                {| dev := ir; closed := []; next_chan := O; trace := [] |} Hidle)
      as (d & c' & Hr).
    exists d, c'. split; [exact Hr |].
    destruct Hr as (n & Hrun & Hret).
    exact (Hall (mk (SendNECRawBytes addrLow addrHigh cmd (not8 cmd)) [] _)
             c' (solo n) d eq_refl Hrun Hret).
Qed.

Lemma SendNECRawCode_zero_iff_invalid_witness :
  SendNECRawCode 0x01FFFF00 = Ret 0 /\
  exists d c', returns (boot sender0 (SendNECRawCode 0x00FFFF00)) d c' /\ d <> 0.
Proof.
  assert (H1 : is_u32 0x01FFFF00) by (unfold is_u32; lia).
  assert (N1 : raw_byte 2 0x01FFFF00 <> not8 (raw_byte 3 0x01FFFF00))
    by (vm_compute; discriminate).
  assert (H2 : is_u32 0x00FFFF00) by (unfold is_u32; lia).
  assert (E2 : raw_byte 2 0x00FFFF00 = not8 (raw_byte 3 0x00FFFF00))
    by reflexivity.
  split.
  - exact (proj1 (proj1 (SendNECRawCode_zero_iff_invalid 0x01FFFF00 H1) N1)).
  - exact (proj2 (proj2 (SendNECRawCode_zero_iff_invalid 0x00FFFF00 H2) E2)
             sender0 eq_refl).
Defined.

(** C8: [NewSender] stores the duty cycle 33 when the configured one is
    outside [1, 100], and the configured one when it is inside; every
    configuration gives a device. *)
Theorem NewSender_duty_cycle (config : SenderConfig) :
  (ModulationDutyCycle config < 1 \/ 100 < ModulationDutyCycle config ->
   pwmDC (NewSender config) = 33) /\
  (1 <= ModulationDutyCycle config <= 100 ->
   pwmDC (NewSender config) = ModulationDutyCycle config) /\
  pin (NewSender config) = ConfigPin config /\
  pwm (NewSender config) = ConfigPWM config /\
  chRpt (NewSender config) = None.
Proof.
  unfold NewSender.
  destruct (Z.ltb_spec (ModulationDutyCycle config) 1) as [Hlo | Hlo];
    [| destruct (Z.gtb_spec (ModulationDutyCycle config) 100) as [Hhi | Hhi]];
    cbn; repeat split; intros; try reflexivity; lia.
Qed.

Lemma NewSender_duty_cycle_witness :
  pwmDC (NewSender config0) = 33 /\
  pwmDC (NewSender {| ConfigPin := 15; ConfigPWM := pwm0;
                      ModulationDutyCycle := 50 |}) = 50.
Proof.
  split.
  - apply (proj1 (NewSender_duty_cycle config0)). left. cbn. lia.
  - apply (proj1 (proj2 (NewSender_duty_cycle
                           {| ConfigPin := 15; ConfigPWM := pwm0;
                              ModulationDutyCycle := 50 |}))).
    cbn. lia.
Defined.

Section RepeatPeriod.

Lemma initial_wait_positive d :
  0 <= d <= max_frame_duration -> 0 < dsub nec_repeat_period d.
Proof.
  unfold dsub, max_frame_duration. nec_constants. intros Hd.
  rewrite i64_small; lia.
Qed.

Lemma wlp_SendNECRepeat (Q : Duration -> Prop) :
  Q (nec_lead_mark + nec_repeat_space + nec_trail_mark) ->
  wlp positive_sleep SendNECRepeat Q.
Proof.
  intros HQ. unfold SendNECRepeat. cbn [wlp].
  apply wlp_mark; [reflexivity |]. apply wlp_space; [reflexivity |].
  apply wlp_mark; [reflexivity |]. exact HQ.
Qed.

Lemma wlp_autoRepeatGoroutine d :
  0 <= d <= max_frame_duration ->
  wlp positive_sleep (autoRepeatGoroutine d) (fun _ => True).
Proof.
  intros Hd. unfold autoRepeatGoroutine. cbn [wlp].
  split; [now apply initial_wait_positive |]. split; [| exact I].
  intros irs. destruct (chRpt irs) as [c |]; cbn [wlp]; [| exact I].
  intros irs' [|]; cbn [wlp]; [exact I |].
  apply wlp_SendNECRepeat. cbn [wlp]. split; [reflexivity | exact I].
Qed.

(** Every sleep of [SendNEC], of the transmission and of the goroutine
    it starts, lasts for a strictly positive duration. *)
Lemma wlp_SendNEC address command autoRepeat :
  wlp positive_sleep (SendNEC address command autoRepeat) (fun _ => True).
Proof.
  unfold SendNEC. destruct (SplitNECAddress address) as [addrLow addrHigh].
  cbn [wlp]. apply wlp_SendNECRawBytes; [apply positive_protocol |].
  destruct autoRepeat; cbn [wlp]; [| exact I].
  intros ch. split; [| exact I].
  apply wlp_autoRepeatGoroutine.
  pose proof (frame_duration_bounds _
                (ones_sent_bounds addrLow addrHigh command (not8 command))) as Hb.
  revert Hb. unfold max_frame_duration. nec_constants. lia.
Qed.

End RepeatPeriod.

(** C9: a full transmission lasts at most
    [LEAD_MARK + LEAD_SPACE + 32*(BIT_MARK + BIT_1_SPACE) + TRAIL_MARK],
    153 units or 86.0625 ms, less than the repeat period of 192 units or
    108 ms; so the first wait of the repeat goroutine, and every other
    sleep of [SendNEC], is strictly positive. *)
Theorem transmission_fits_repeat_period :
  max_frame_duration = 153 * nec_unit /\
  max_frame_duration = 86062500 * Nanosecond /\
  nec_repeat_period = 192 * nec_unit /\
  nec_repeat_period = 108000000 * Nanosecond /\
  max_frame_duration < nec_repeat_period /\
  (forall (b0 b1 b2 b3 : Z) (c c' : Config Duration) (sched : list nat)
          (d : Duration),
      is_u8 b0 -> is_u8 b1 -> is_u8 b2 -> is_u8 b3 ->
      fg c = SendNECRawBytes b0 b1 b2 b3 ->
      run sched c = Some c' -> fg c' = Ret d ->
      0 < d <= max_frame_duration /\ 0 < dsub nec_repeat_period d) /\
  (forall (address command : Z) (autoRepeat : bool) (ir : SenderDevice)
          (sched : list nat) (c' : Config unit),
      is_u16 address -> is_u8 command ->
      run sched (boot ir (SendNEC address command autoRepeat)) = Some c' ->
      sleeps_in positive_sleep (trace (world c'))).
Proof.
  do 5 (split; [reflexivity |]). split.
  - intros b0 b1 b2 b3 c c' sched d _ _ _ _ Hfg Hrun Hret.
    assert (Hd : 0 < d <= max_frame_duration).
    { refine (run_post any_sleep (fun d => 0 < d <= max_frame_duration)
                sched c c' d _ Hrun Hret).
      apply safe_any.
      pose proof (frame_duration_bounds _ (ones_sent_bounds b0 b1 b2 b3)) as Hb.
      assert (Hq : 0 < frame_duration (ones_sent b0 b1 b2 b3) <= max_frame_duration)
        by (revert Hb; unfold max_frame_duration; nec_constants; lia).
      pose proof (wlp_SendNECRawBytes any_sleep any_sleep_protocol b0 b1 b2 b3
                    (fun d => 0 < d <= max_frame_duration) Hq) as H.
      rewrite <- Hfg in H. exact H. }
    split; [exact Hd |]. apply initial_wait_positive. lia.
  - intros address command autoRepeat ir sched c' _ _ Hrun.
    assert (Hs : safe positive_sleep (fun _ => True)
                   (boot ir (SendNEC address command autoRepeat))).
    { unfold safe. split; [apply wlp_SendNEC | split; constructor]. }
    exact (proj2 (proj2 (run_safe _ _ sched _ c' Hs Hrun))).
Qed.

Lemma transmission_fits_repeat_period_witness :
  exists c' : Config unit,
    run (solo 386) (boot sender0 (SendNEC 0x04 0x08 true)) = Some c' /\
    sleeps_in positive_sleep (trace (world c')).
Proof.
  destruct (run (solo 386) (boot sender0 (SendNEC 0x04 0x08 true)))
    as [c' |] eqn:E.
  - exists c'. split; [reflexivity |].
    apply (proj2 (proj2 (proj2 (proj2 (proj2 (proj2
             transmission_fits_repeat_period)))))
             0x04 0x08 true sender0 (solo 386) c');
      [unfold is_u16; lia | unfold is_u8; lia | exact E].
  - exfalso.
    assert (H : option_map (fun _ => tt)
                  (run (solo 386) (boot sender0 (SendNEC 0x04 0x08 true)))
                = Some tt) by (vm_compute; reflexivity).
    rewrite E in H. discriminate H.
Defined.

(** * Cancellation of the repeat session *)
(** C3 (not met by the code): a schedule of the caller and the repeat
    goroutines in which [StopNECRepeats] has returned, [ir.chRpt] is nil,
    and the goroutine of the first session then sends a whole repeat
    frame. *)
Theorem repeat_frame_after_StopNECRepeats :
  exists c1 c2 : Config unit,
    run race_schedule (boot sender0 client) = Some c1 /\
    fg c1 = Ret tt /\
    chRpt (dev (world c1)) = None /\
    run (burst 1 24) c1 = Some c2 /\
    trace (world c2) = trace (world c1) ++ repeat_frame_trace 1.
Proof.
  assert (Hfg : option_map fg (run race_schedule (boot sender0 client))
                = Some (Ret tt)) by (vm_compute; reflexivity).
  assert (Hch : option_map (fun c => chRpt (dev (world c)))
                  (run race_schedule (boot sender0 client))
                = Some None) by (vm_compute; reflexivity).
  assert (Htr : option_map (fun c => trace (world c))
                  (run (race_schedule ++ burst 1 24) (boot sender0 client))
                = option_map (fun c => trace (world c) ++ repeat_frame_trace 1)
                    (run race_schedule (boot sender0 client)))
    by (vm_compute; reflexivity).
  rewrite run_app in Htr.
  destruct (run race_schedule (boot sender0 client)) as [c1 |];
    [| discriminate].
  destruct (run (burst 1 24) c1) as [c2 |] eqn:E2; [| discriminate].
  cbn [option_map] in *.
  injection Hfg as Hfg. injection Hch as Hch. injection Htr as Htr.
  exists c1, c2. repeat split; assumption.
Qed.

(** When the goroutine is not preempted between the assignment of nil and
    the loop test, it has exited by the time [StopNECRepeats] returns. *)
Lemma orderly_cancellation :
  option_map (fun c => (fg c, gs c, chRpt (dev (world c))))
    (run orderly_schedule (boot sender0 client1))
  = Some (Ret tt, [Ret tt], None).
Proof. vm_compute. reflexivity. Qed.

(** * Further properties of the codec *)

Section WireBytes.

Lemma raw_byte_pack2 lo hi :
  is_u8 lo -> is_u8 hi ->
  raw_byte 0 (hi * 2 ^ 8 + lo) = lo /\ raw_byte 1 (hi * 2 ^ 8 + lo) = hi.
Proof.
  intros Hlo Hhi.
  assert (Hz : is_u8 0) by (unfold is_u8; lia).
  destruct (raw_byte_pack lo hi 0 0 Hlo Hhi Hz Hz) as (H0 & H1 & _).
  cbv zeta in H0, H1.
  replace (0 * 2 ^ 24 + 0 * 2 ^ 16 + hi * 2 ^ 8 + lo)
    with (hi * 2 ^ 8 + lo) in H0, H1 by lia.
  now split.
Qed.

Lemma raw_byte_small lo :
  is_u8 lo -> raw_byte 0 lo = lo /\ raw_byte 1 lo = 0.
Proof.
  intros Hlo. assert (Hz : is_u8 0) by (unfold is_u8; lia).
  destruct (raw_byte_pack2 lo 0 Hlo Hz) as [H0 H1].
  now replace (0 * 2 ^ 8 + lo) with lo in H0, H1 by lia.
Qed.

(** What the decomposition gives for an address read off the wire. *)
Lemma Split_Make lo hi :
  is_u8 lo -> is_u8 hi ->
  SplitNECAddress (MakeNECAddress lo hi) = (lo, rewritten_high lo hi).
Proof.
  intros Hlo Hhi. rewrite MakeNECAddress_eq, SplitNECAddress_eq by assumption.
  unfold rewritten_high. rewrite not8_sub by assumption.
  destruct (Z.eqb_spec hi (0xFF - lo)) as [E | N].
  - destruct (raw_byte_small lo Hlo) as [-> ->]. cbn [Z.eqb].
    destruct (Z.eqb_spec hi 0); f_equal; lia.
  - destruct (raw_byte_pack2 lo hi Hlo Hhi) as [-> ->].
    reflexivity.
Qed.

End WireBytes.

(** X1: the wire bytes [(lo, hi)] of an address come back from
    [SplitNECAddress] after [MakeNECAddress] unless [hi] is zero and [lo] is
    not [0xFF]; then the high byte comes back as the complement of [lo]. *)
Theorem wire_address_roundtrip (lo hi : Z) :
  is_u8 lo -> is_u8 hi ->
  (SplitNECAddress (MakeNECAddress lo hi) = (lo, hi) <->
   ~ (hi = 0 /\ lo <> 0xFF)) /\
  (hi = 0 -> SplitNECAddress (MakeNECAddress lo hi) = (lo, not8 lo)).
Proof.
  intros Hlo Hhi. rewrite Split_Make by assumption. unfold rewritten_high.
  pose proof (not8_sub lo Hlo) as Hn. unfold is_u8 in *.
  destruct (Z.eqb_spec hi 0) as [E | N]; split.
  - split.
    + intros [= H]. lia.
    + intros H. f_equal. lia.
  - reflexivity.
  - split; [intros _ [H _]; contradiction | reflexivity].
  - intros H. contradiction.
Qed.

Lemma wire_address_roundtrip_witness :
  SplitNECAddress (MakeNECAddress 0x12 0x00) = (0x12, not8 0x12) /\
  SplitNECAddress (MakeNECAddress 0x0D 0xF0) = (0x0D, 0xF0).
Proof.
  assert (H1 : is_u8 0x12) by (unfold is_u8; lia).
  assert (H0 : is_u8 0x00) by (unfold is_u8; lia).
  assert (H2 : is_u8 0x0D) by (unfold is_u8; lia).
  assert (H3 : is_u8 0xF0) by (unfold is_u8; lia).
  split.
  - exact (proj2 (wire_address_roundtrip 0x12 0x00 H1 H0) eq_refl).
  - apply (proj1 (wire_address_roundtrip 0x0D 0xF0 H2 H3)). lia.
Defined.

Section Reencode.

Lemma rewritten_high_range lo hi :
  is_u8 lo -> is_u8 hi -> is_u8 (rewritten_high lo hi).
Proof.
  intros Hlo Hhi. unfold rewritten_high.
  destruct (hi =? 0); [now apply not8_range | assumption].
Qed.

(** Resolution does not see the rewriting of the high byte. *)
Lemma Make_rewritten lo hi :
  is_u8 lo -> is_u8 hi ->
  MakeNECAddress lo (rewritten_high lo hi) = MakeNECAddress lo hi.
Proof.
  intros Hlo Hhi. unfold rewritten_high.
  destruct (Z.eqb_spec hi 0) as [-> | N]; [| reflexivity].
  rewrite !MakeNECAddress_eq by (try apply not8_range; assumption).
  rewrite not8_sub by assumption. rewrite Z.eqb_refl.
  destruct (0 =? 0xFF - lo); lia.
Qed.

Lemma MakeNECAddress_range lo hi :
  is_u8 lo -> is_u8 hi -> is_u16 (MakeNECAddress lo hi).
Proof.
  intros Hlo Hhi. rewrite MakeNECAddress_eq by assumption.
  unfold is_u8, is_u16 in *. destruct (hi =? 0xFF - lo); lia.
Qed.

Lemma canonical_Make lo hi :
  is_u8 lo -> is_u8 hi ->
  canonical_address (MakeNECAddress lo hi) = MakeNECAddress lo hi.
Proof.
  intros Hlo Hhi. unfold canonical_address.
  rewrite Split_Make by assumption. now apply Make_rewritten.
Qed.

(** A 32-bit word is the sum of its four bytes. *)
Lemma u32_bytes data :
  is_u32 data ->
  data = raw_byte 3 data * 2 ^ 24 + raw_byte 2 data * 2 ^ 16
         + raw_byte 1 data * 2 ^ 8 + raw_byte 0 data.
Proof.
  unfold is_u32, raw_byte. intros Hd.
  change (8 * 0) with 0. change (8 * 1) with 8.
  change (8 * 2) with 16. change (8 * 3) with 24.
  Z.div_mod_to_equations. lia.
Qed.

(** The raw code made from a decoded valid code, byte by byte. *)
Lemma reencode_eq data :
  raw_byte 2 data = not8 (raw_byte 3 data) ->
  MakeRawNECData (MakeNECAddress (raw_byte 0 data) (raw_byte 1 data))
    (raw_byte 2 data)
  = raw_byte 3 data * 2 ^ 24 + raw_byte 2 data * 2 ^ 16
    + rewritten_high (raw_byte 0 data) (raw_byte 1 data) * 2 ^ 8
    + raw_byte 0 data.
Proof.
  intros Hv. rewrite MakeRawNECData_eq by apply raw_byte_range.
  rewrite Split_Make by apply raw_byte_range. cbn [fst snd].
  rewrite Hv, not8_sub by apply raw_byte_range.
  pose proof (raw_byte_range 3 data) as H3. unfold is_u8 in H3. lia.
Qed.

End Reencode.

(** X2: whatever the raw code, the address the decoder returns is a fixed
    point of decompose-then-resolve, and the decoded pair, encoded again,
    decodes to itself with [valid = true]. *)
Theorem decoded_pair_is_canonical (data : Z) :
  is_u32 data ->
  let '(_, address, command) := SplitRawNECData data in
  is_u16 address /\ is_u8 command /\
  canonical_address address = address /\
  SplitRawNECData (MakeRawNECData address command) = (true, address, command).
Proof.
  intros _. rewrite SplitRawNECData_eq.
  pose proof (raw_byte_range 0 data) as H0.
  pose proof (raw_byte_range 1 data) as H1.
  pose proof (raw_byte_range 2 data) as H2.
  split; [now apply MakeNECAddress_range |]. split; [exact H2 |].
  split; [now apply canonical_Make |].
  rewrite decode_encode by exact H2. now rewrite canonical_Make.
Qed.

Lemma decoded_pair_is_canonical_witness :
  let '(_, address, command) := SplitRawNECData 0x12340FF0 in
  is_u16 address /\ is_u8 command /\
  canonical_address address = address /\
  SplitRawNECData (MakeRawNECData address command) = (true, address, command).
Proof. apply (decoded_pair_is_canonical 0x12340FF0). unfold is_u32. lia. Defined.

(** X3: a valid raw code, decoded and encoded again, keeps its bytes 0, 2
    and 3; byte 1 is kept unless it is zero, when it becomes the complement
    of byte 0.  So the code comes back unchanged exactly when byte 1 is not
    zero or byte 0 is [0xFF]. *)
Theorem reencode_raw_code (data : Z) :
  is_u32 data ->
  raw_byte 2 data = not8 (raw_byte 3 data) ->
  let '(_, address, command) := SplitRawNECData data in
  let data' := MakeRawNECData address command in
  raw_byte 0 data' = raw_byte 0 data /\
  raw_byte 1 data' = rewritten_high (raw_byte 0 data) (raw_byte 1 data) /\
  raw_byte 2 data' = raw_byte 2 data /\
  raw_byte 3 data' = raw_byte 3 data /\
  (data' = data <-> ~ (raw_byte 1 data = 0 /\ raw_byte 0 data <> 0xFF)).
Proof.
  intros Hd Hv. rewrite SplitRawNECData_eq. cbv zeta.
  rewrite reencode_eq by assumption.
  pose proof (raw_byte_range 0 data) as H0.
  pose proof (raw_byte_range 1 data) as H1.
  pose proof (raw_byte_range 2 data) as H2.
  pose proof (raw_byte_range 3 data) as H3.
  pose proof (rewritten_high_range _ _ H0 H1) as Hr.
  destruct (raw_byte_pack _ _ _ _ H0 Hr H2 H3) as (E0 & E1 & E2 & E3).
  cbv zeta in E0, E1, E2, E3. rewrite E0, E1, E2, E3.
  do 4 (split; [reflexivity |]).
  pose proof (u32_bytes data Hd) as Hdata.
  pose proof (not8_sub _ H0) as Hn.
  unfold rewritten_high in *. unfold is_u8 in *.
  set (b0 := raw_byte 0 data) in *. set (b1 := raw_byte 1 data) in *.
  set (b2 := raw_byte 2 data) in *. set (b3 := raw_byte 3 data) in *.
  clearbody b0 b1 b2 b3.
  destruct (Z.eqb_spec b1 0) as [E | N]; split; intros H; lia.
Qed.

Lemma reencode_raw_code_witness :
  let '(_, address, command) := SplitRawNECData 0xFF000012 in
  let data' := MakeRawNECData address command in
  raw_byte 0 data' = raw_byte 0 0xFF000012 /\
  raw_byte 1 data' = rewritten_high (raw_byte 0 0xFF000012) (raw_byte 1 0xFF000012) /\
  raw_byte 2 data' = raw_byte 2 0xFF000012 /\
  raw_byte 3 data' = raw_byte 3 0xFF000012 /\
  (data' = 0xFF000012 <->
   ~ (raw_byte 1 0xFF000012 = 0 /\ raw_byte 0 0xFF000012 <> 0xFF)).
Proof.
  apply (reencode_raw_code 0xFF000012); [unfold is_u32; lia | reflexivity].
Defined.

Section Collisions.

Lemma rewritten_high_idem lo hi :
  is_u8 lo ->
  rewritten_high lo (rewritten_high lo hi) = rewritten_high lo hi.
Proof.
  intros Hlo. unfold rewritten_high.
  destruct (Z.eqb_spec hi 0) as [E | N].
  - now destruct (not8 lo =? 0).
  - destruct (Z.eqb_spec hi 0); [contradiction | reflexivity].
Qed.

(** The decomposition of an address is that of its canonical form. *)
Lemma Split_canonical address :
  SplitNECAddress (canonical_address address) = SplitNECAddress address.
Proof.
  unfold canonical_address.
  destruct (SplitNECAddress_range address) as [Hlo Hhi].
  pose proof (SplitNECAddress_eq address) as E.
  rewrite <- not8_sub in E by apply raw_byte_range.
  destruct (SplitNECAddress address) as [lo hi]. cbn [fst snd] in *.
  injection E as -> ->.
  rewrite Split_Make by assumption. f_equal.
  apply (rewritten_high_idem _ (raw_byte 1 address)), raw_byte_range.
Qed.

End Collisions.

(** X4: two (address, command) pairs get the same raw code exactly when
    the commands are equal and the addresses have the same canonical
    form. *)
Theorem encoder_collisions (address address' command command' : Z) :
  is_u16 address -> is_u16 address' -> is_u8 command -> is_u8 command' ->
  (MakeRawNECData address command = MakeRawNECData address' command' <->
   command = command' /\
   canonical_address address = canonical_address address').
Proof.
  intros _ _ Hc Hc'. split.
  - intros H. apply (f_equal SplitRawNECData) in H.
    rewrite !decode_encode in H by assumption.
    injection H as Ha Hcmd. now split.
  - intros [<- Ha]. rewrite !MakeRawNECData_eq by assumption.
    rewrite <- (Split_canonical address), <- (Split_canonical address'), Ha.
    reflexivity.
Qed.

Lemma encoder_collisions_witness :
  MakeRawNECData 0xF00F 0x5A = MakeRawNECData 0x000F 0x5A.
Proof.
  apply (proj2 (encoder_collisions 0xF00F 0x000F 0x5A 0x5A
                  ltac:(unfold is_u16; lia) ltac:(unfold is_u16; lia)
                  ltac:(unfold is_u8; lia) ltac:(unfold is_u8; lia))).
  split; reflexivity.
Defined.

Section Undetected.

Lemma sub_lxor x : is_u8 x -> 0xFF - x = Z.lxor x 0xFF.
Proof.
  intros Hx. rewrite <- not8_sub by assumption. unfold not8, u8.
  unfold is_u8 in Hx. rewrite <- (Z.mod_small x (2 ^ 8)) at 2 by lia.
  change 0xFF with (Z.ones 8). Z.bitblast.
Qed.

Lemma lxor_cancel_r a b m : Z.lxor a m = Z.lxor b m <-> a = b.
Proof.
  split; [| now intros ->].
  intros H. apply (f_equal (fun x => Z.lxor x m)) in H.
  now rewrite !Z.lxor_assoc, Z.lxor_nilpotent, !Z.lxor_0_r in H.
Qed.

(** A bit of the address half of the word is in neither checked byte. *)
Lemma raw_byte_low_bit i :
  0 <= i < 16 -> raw_byte 2 (2 ^ i) = 0 /\ raw_byte 3 (2 ^ i) = 0.
Proof.
  intros Hi.
  assert (E : i = 0 \/ i = 1 \/ i = 2 \/ i = 3 \/ i = 4 \/ i = 5 \/ i = 6 \/
              i = 7 \/ i = 8 \/ i = 9 \/ i = 10 \/ i = 11 \/ i = 12 \/
              i = 13 \/ i = 14 \/ i = 15) by lia.
  repeat (destruct E as [-> | E]; [split; reflexivity |]).
  subst i. split; reflexivity.
Qed.

(** Bit [j] of the command byte and bit [j] of the inverted-command byte. *)
Lemma raw_byte_pair j :
  0 <= j < 8 ->
  raw_byte 2 (2 ^ (16 + j)) = 2 ^ j /\ raw_byte 3 (2 ^ (16 + j)) = 0 /\
  raw_byte 2 (2 ^ (24 + j)) = 0 /\ raw_byte 3 (2 ^ (24 + j)) = 2 ^ j.
Proof.
  intros Hj.
  assert (E : j = 0 \/ j = 1 \/ j = 2 \/ j = 3 \/ j = 4 \/ j = 5 \/ j = 6 \/
              j = 7) by lia.
  repeat (destruct E as [-> | E]; [repeat split; reflexivity |]).
  subst j. repeat split; reflexivity.
Qed.

End Undetected.

(** X5: what the validity check of the decoder does not see.  A flipped bit
    in the two address bytes changes neither [valid] nor the command; bit
    [j] flipped in both the command byte and the inverted-command byte
    leaves [valid] as it was and flips bit [j] of the command. *)
Theorem undetected_errors (data : Z) :
  is_u32 data ->
  (forall i, 0 <= i < 16 ->
     fst (fst (SplitRawNECData (Z.lxor data (2 ^ i))))
     = fst (fst (SplitRawNECData data)) /\
     snd (SplitRawNECData (Z.lxor data (2 ^ i)))
     = snd (SplitRawNECData data)) /\
  (forall j, 0 <= j < 8 ->
     let data' := Z.lxor (Z.lxor data (2 ^ (16 + j))) (2 ^ (24 + j)) in
     fst (fst (SplitRawNECData data')) = fst (fst (SplitRawNECData data)) /\
     snd (SplitRawNECData data') = Z.lxor (snd (SplitRawNECData data)) (2 ^ j)).
Proof.
  intros _. split.
  - intros i Hi. rewrite !SplitRawNECData_eq. cbn [fst snd].
    rewrite !raw_byte_lxor by lia.
    destruct (raw_byte_low_bit i Hi) as [-> ->].
    rewrite !Z.lxor_0_r. split; reflexivity.
  - intros j Hj data'. rewrite !SplitRawNECData_eq. cbn [fst snd].
    rewrite !sub_lxor by apply raw_byte_range.
    subst data'. rewrite !raw_byte_lxor by lia.
    destruct (raw_byte_pair j Hj) as (-> & -> & -> & ->).
    rewrite !Z.lxor_0_r. split; [| reflexivity].
    set (c := raw_byte 2 data). set (n := raw_byte 3 data).
    replace (Z.lxor (Z.lxor n (2 ^ j)) 0xFF)
      with (Z.lxor (Z.lxor n 0xFF) (2 ^ j))
      by (rewrite !Z.lxor_assoc; f_equal; apply Z.lxor_comm).
    destruct (Z.eqb_spec c (Z.lxor n 0xFF)) as [E | N].
    + apply Z.eqb_eq. now rewrite E.
    + apply Z.eqb_neq. intros H. apply lxor_cancel_r in H. contradiction.
Qed.

Lemma undetected_errors_witness :
  fst (fst (SplitRawNECData (Z.lxor 0x00FFFF00 (2 ^ 3))))
  = fst (fst (SplitRawNECData 0x00FFFF00)) /\
  snd (SplitRawNECData (Z.lxor 0x00FFFF00 (2 ^ 3)))
  = snd (SplitRawNECData 0x00FFFF00).
Proof.
  apply (proj1 (undetected_errors 0x00FFFF00 ltac:(unfold is_u32; lia)) 3).
  lia.
Defined.

(** * Runs of the caller alone, with their outputs *)

Section ExactRuns.

Lemma returns_op {R : Type} (p : Prog R) (a : R) g w w' :
  step 0 p w = Stepped (Ret a) w' [] ->
  returns (mk p g w) a (mk (Ret a) g w').
Proof.
  intros Hs. eapply returns_step; [exact Hs |].
  rewrite app_nil_r. apply returns_ret.
Qed.

Lemma returns_silent {R : Type} (p p' : Prog R) g w a c' :
  step 0 p w = Stepped p' w [] ->
  returns (mk p' g w) a c' -> returns (mk p g w) a c'.
Proof.
  intros Hs Hr. eapply returns_step; [exact Hs |]. now rewrite app_nil_r.
Qed.

Lemma emits_app tid evs1 evs2 w :
  emits tid (evs1 ++ evs2) w = emits tid evs2 (emits tid evs1 w).
Proof. apply fold_left_app. Qed.

Lemma dev_emits tid evs w : dev (emits tid evs w) = dev w.
Proof.
  revert w. induction evs as [| e evs IH]; intros w; [reflexivity |].
  cbn [emits fold_left]. fold (emits tid evs (emit tid e w)). now rewrite IH.
Qed.

Lemma closed_emits tid evs w : closed (emits tid evs w) = closed w.
Proof.
  revert w. induction evs as [| e evs IH]; intros w; [reflexivity |].
  cbn [emits fold_left]. fold (emits tid evs (emit tid e w)). now rewrite IH.
Qed.

Lemma next_chan_emits tid evs w : next_chan (emits tid evs w) = next_chan w.
Proof.
  revert w. induction evs as [| e evs IH]; intros w; [reflexivity |].
  cbn [emits fold_left]. fold (emits tid evs (emit tid e w)). now rewrite IH.
Qed.

Lemma trace_emits tid evs w :
  trace (emits tid evs w) = trace w ++ map (pair tid) evs.
Proof.
  revert w. induction evs as [| e evs IH]; intros w.
  - cbn. now rewrite app_nil_r.
  - cbn [emits fold_left map]. fold (emits tid evs (emit tid e w)).
    rewrite IH. cbn [emit trace]. now rewrite <- app_assoc.
Qed.

End ExactRuns.
